(** * Parallel quadruple-root calculator: model and verification

    Shallow embedding of [Para_Q_Root_calc.c].  The program sums the
    fourth roots of 1..n with m POSIX threads: every thread sums its own
    sub-range into [partial_sums[tid]] (phase 1), then the threads combine
    the slots by a barrier-synchronised tree reduction (phase 2).

    Conventions of the model:
    - a C [int] is a [Z] together with the check that every arithmetic
      result fits 32 bits; a result that does not fit is signed overflow,
      which C leaves undefined, and the model stops with [Undefined];
    - [double] values are an abstract type [T] with the addition [add],
      the constant [zero] (0.0) and [pow025 i] for [pow(i, 0.25)]; laws of
      the addition are assumed only where a statement says so;
    - [partial_sums] is a [list T]; an access outside it is [Undefined];
    - loops take a fuel argument and answer [OutOfFuel] when it runs out;
    - [pthread_barrier_wait] separates rounds: all accesses of one round
      happen before any access of the next one, so a round of the whole
      program is the composition of the round bodies of the m threads;
      the order of the threads inside a round does not change the
      result ([phase1_order], [round_order]). *)

From Stdlib Require Import ZArith Lia.
From stdpp Require Import base numbers list.

Local Open Scope Z_scope.

(** ** Outcomes of running a piece of the program *)

Inductive outcome (A : Type) : Type :=
| Done (a : A)
| Undefined
| OutOfFuel.

Arguments Done {A} a.
Arguments Undefined {A}.
Arguments OutOfFuel {A}.

Definition obind {A B : Type} (x : outcome A) (f : A → outcome B) : outcome B :=
  match x with
  | Done a => f a
  | Undefined => Undefined
  | OutOfFuel => OutOfFuel
  end.

#[global] Instance outcome_bind : MBind outcome := λ A B f x, obind x f.
#[global] Instance outcome_ret : MRet outcome := @Done.

Definition is_done {A : Type} (x : outcome A) : Prop :=
  match x with Done _ => True | _ => False end.

(** ** C [int] arithmetic *)

Definition INT_MAX : Z := 2147483647.
Definition INT_MIN : Z := -2147483648.

(** The largest thread count for which [2 * step] fits an [int] in every
    round of the reduction. *)
Definition TWO_30 : Z := 1073741824.

Definition in_int (z : Z) : bool := (INT_MIN <=? z) && (z <=? INT_MAX).

Definition int_of (z : Z) : outcome Z :=
  if in_int z then Done z else Undefined.

Definition int_add (a b : Z) : outcome Z := int_of (a + b).
Definition int_sub (a b : Z) : outcome Z := int_of (a - b).
Definition int_mul (a b : Z) : outcome Z := int_of (a * b).

(** [a / b] and [a % b] of C truncate towards zero; both are undefined
    when [b] is zero or the quotient does not fit. *)
Definition int_div (a b : Z) : outcome Z :=
  if b =? 0 then Undefined else int_of (a ÷ b).

Definition int_rem (a b : Z) : outcome Z :=
  if b =? 0 then Undefined
  else if in_int (a ÷ b) then Done (Z.rem a b) else Undefined.

(** ** Thread arguments *)

Record ThreadArgs : Type := mkThreadArgs {
  thread_id : Z;
  total_threads : Z;
  max_number : Z
}.

(** ** The [double] operations the program uses *)

Class FloatOps (T : Type) : Type := {
  add : T → T → T;      (* [x + y] on doubles *)
  zero : T;             (* the constant [0.0] *)
  pow025 : Z → T        (* [pow(i, 0.25)] of an [int] i *)
}.

(** ** Phase 1, lines 32-38: the range of a thread

    [start = tid * (n / m) + 1], [end = (tid + 1) * (n / m)], and the last
    thread takes [end = n]. *)

Definition thread_range (args : ThreadArgs) : outcome (Z * Z) :=
  let tid := thread_id args in
  let m := total_threads args in
  let n := max_number args in
  q ← int_div n m;
  t ← int_mul tid q;
  start ← int_add t 1;
  t1 ← int_add tid 1;
  q' ← int_div n m;
  end0 ← int_mul t1 q';
  m1 ← int_sub m 1;
  Done (start, if tid =? m1 then n else end0).

(** [i] lies in the inclusive range given to thread [tid]. *)
Definition assigned (tid m n i : Z) : Prop :=
  match thread_range (mkThreadArgs tid m n) with
  | Done (s, e) => s ≤ i ≤ e
  | _ => False
  end.

(** Phase 2, lines 70-73: the partner slot [tid + step] of a thread in a
    round with step [step], when the thread is active ([tid % (2 * step)]
    is 0) and the partner exists ([tid + step < m]). *)
Definition round_partner (step : Z) (args : ThreadArgs) : option Z :=
  let tid := thread_id args in
  let m := total_threads args in
  match (d ← int_mul 2 step; int_rem tid d) with
  | Done r =>
      if r =? 0 then
        match int_add tid step with
        | Done p => if p <? m then Some p else None
        | _ => None
        end
      else None
  | _ => None
  end.

(** The slots of [partial_sums] a thread reads and writes in a round:
    [partial_sums[tid] += partial_sums[tid + step]] reads both slots and
    writes its own; a thread without partner touches no slot. *)
Definition round_reads (step : Z) (args : ThreadArgs) : list Z :=
  match round_partner step args with
  | Some p => [thread_id args; p]
  | None => []
  end.

Definition round_writes (step : Z) (args : ThreadArgs) : list Z :=
  match round_partner step args with
  | Some _ => [thread_id args]
  | None => []
  end.

Definition round_accesses (step : Z) (args : ThreadArgs) : list Z :=
  round_reads step args ++ round_writes step args.

Section Program.
Context {T : Type} {ops : FloatOps T}.

(** *** The shared array [partial_sums] *)

Definition in_bounds (partial_sums : list T) (i : Z) : bool :=
  (0 <=? i) && (i <? Z.of_nat (length partial_sums)).

Definition load (partial_sums : list T) (i : Z) : outcome T :=
  if in_bounds partial_sums i then
    match partial_sums !! Z.to_nat i with
    | Some v => Done v
    | None => Undefined
    end
  else Undefined.

Definition store (partial_sums : list T) (i : Z) (v : T) : outcome (list T) :=
  if in_bounds partial_sums i then Done (<[Z.to_nat i := v]> partial_sums)
  else Undefined.

(** *** Phase 1, lines 41-44

    [for (i = start; i <= end; i++) local_sum += pow(i, 0.25)] *)

Fixpoint sum_loop (fuel : nat) (i end_ : Z) (local_sum : T) : outcome T :=
  match fuel with
  | O => OutOfFuel
  | S fuel' =>
      if i <=? end_ then
        let local_sum' := add local_sum (pow025 i) in
        i' ← int_add i 1;
        sum_loop fuel' i' end_ local_sum'
      else Done local_sum
  end.

(** Phase 1 of one thread, lines 24-47, up to the first barrier. *)
Definition phase1 (fuel : nat) (args : ThreadArgs) (partial_sums : list T)
  : outcome (list T) :=
  '(start, end_) ← thread_range args;
  local_sum ← sum_loop fuel start end_ zero;
  store partial_sums (thread_id args) local_sum.

(** *** Phase 2, lines 70-80: the body of one reduction round of one thread *)

Definition reduce_round (step : Z) (args : ThreadArgs) (partial_sums : list T)
  : outcome (list T) :=
  let tid := thread_id args in
  let m := total_threads args in
  d ← int_mul 2 step;
  r ← int_rem tid d;
  if r =? 0 then
    p ← int_add tid step;
    if p <? m then
      x ← load partial_sums tid;
      y ← load partial_sums p;
      store partial_sums tid (add x y)
    else Done partial_sums
  else Done partial_sums.

(** *** The threads between two barriers

    [run_threads body ts s] runs the piece [body] of every thread of
    [ts], in the order of [ts], on the shared array. *)

Fixpoint run_threads (body : ThreadArgs → list T → outcome (list T))
    (ts : list ThreadArgs) (partial_sums : list T) : outcome (list T) :=
  match ts with
  | [] => Done partial_sums
  | a :: ts' => s ← body a partial_sums; run_threads body ts' s
  end.

(** The arguments [main] hands to the threads it creates, lines 140-143. *)
Definition thread_args (m n : Z) : list ThreadArgs :=
  (λ i, mkThreadArgs i m n) <$> seqZ 0 m.

(** *** Phase 2, lines 67-86: the reduction loop

    Every thread runs the same loop on its own copy of [step], and the
    barrier at the end of the body keeps the threads in the same round.
    [rounds] counts the rounds; it is not a variable of the program. *)

Fixpoint reduction_loop (fuel : nat) (m n step : Z) (rounds : nat)
    (partial_sums : list T) : outcome (list T * nat) :=
  match fuel with
  | O => OutOfFuel
  | S fuel' =>
      if step <? m then
        s ← run_threads (reduce_round step) (thread_args m n) partial_sums;
        step' ← int_mul step 2;
        reduction_loop fuel' m n step' (S rounds) s
      else Done (partial_sums, rounds)
  end.

(** *** [compute_quadruple_roots], lines 23-96, run by the m threads

    Phase 1 of every thread, the barrier of line 53, the reduction loop,
    and the value of [partial_sums[0]] that thread 0 prints, line 91. *)

Definition compute_quadruple_roots (fuel : nat) (m n : Z)
    (partial_sums : list T) : outcome T :=
  s1 ← run_threads (phase1 fuel) (thread_args m n) partial_sums;
  '(s2, _) ← reduction_loop fuel m n 1 0 s1;
  load s2 0.

(** *** Reference values used in the statements *)

(** The sequential sum of [pow(i, 0.25)] for [i] from [from] upwards,
    [len] terms, added in increasing order starting from [0.0]. *)
Definition sum_range (from len : Z) : T :=
  foldl add zero (pow025 <$> seqZ from len).

Definition reference_sum (n : Z) : T := sum_range 1 n.

(** The sum of a non-empty run of slots, added from left to right. *)
Definition sum_slots (l : list T) : option T :=
  match l with
  | [] => None
  | x :: r => Some (foldl add x r)
  end.

(** The slots [j, j + len) of [sums], clipped to the length of [sums]. *)
Definition block (sums : list T) (j len : Z) : list T :=
  take (Z.to_nat len) (drop (Z.to_nat j) sums).

(** The value thread [tid] of [m] leaves in its slot in phase 1: the sum
    over its range, empty when [end < start]. *)
Definition partial_sum (m n tid : Z) : T :=
  let start := tid * (n ÷ m) + 1 in
  let end_ := if tid =? m - 1 then n else (tid + 1) * (n ÷ m) in
  sum_range start (end_ - start + 1).

(** The array after a reduction round with step [step]: slot [j] has
    received slot [j + step] when [j] is a multiple of [2 * step] and
    [j + step] is a slot. *)
Definition combine_round (step : Z) (sums : list T) : list T :=
  imap (λ j x,
          if decide (Z.of_nat j `mod` (2 * step) = 0) then
            match sums !! (j + Z.to_nat step)%nat with
            | Some y => add x y
            | None => x
            end
          else x) sums.

(** The array after [k] successive rounds, the first with step [step]. *)
Fixpoint combine_rounds (k : nat) (step : Z) (sums : list T) : list T :=
  match k with
  | O => sums
  | S k' => combine_rounds k' (2 * step) (combine_round step sums)
  end.

(** At the start of round [k], each slot [j] that is a multiple of [2^k]
    holds the sum of the slots [j .. j + 2^k - 1], clipped to the array,
    of the array [sums0] that phase 1 left. *)
Definition block_invariant (sums0 : list T) (k : Z) (sums : list T) : Prop :=
  length sums = length sums0 ∧
  ∀ j : nat, (j < length sums0)%nat → Z.of_nat j `mod` 2 ^ k = 0 →
             sums !! j = sum_slots (block sums0 (Z.of_nat j) (2 ^ k)).

(** While the threads of [done] have run their piece and the others have
    not, the array [s] holds the slots of [after] at the threads of [done]
    and the slots of [before] elsewhere. *)
Definition mixed (before after : list T) (done : list Z) (s : list T) : Prop :=
  length s = length before ∧
  ∀ i : nat, s !! i = if decide (Z.of_nat i ∈ done) then after !! i
                      else before !! i.

End Program.

(** An instance with exact arithmetic, to run the model on concrete
    inputs: a value is the list of the integers whose fourth roots were
    added, in the order of the additions. *)
Definition term_ops : FloatOps (list Z) :=
  {| add := app; zero := []; pow025 := λ i, [i] |}.

(** ** [main], lines 98-166

    The operating system is a parameter: which allocations and which
    thread creations succeed, and what the new array contains.

    [main] returns once its last statement is reached. On the path where
    every thread is created, that is after every [pthread_join] has
    returned, so after every thread has finished: the outcome of [main]
    is then the outcome of the threads followed by the joins and the
    clean-up, and when the threads have undefined behaviour or do not
    finish, [main] has no exit code, no join and no release. *)

Inductive resource : Type :=
| RPartialSums          (* [partial_sums], line 120 *)
| RBarrier              (* [barrier], line 127 *)
| RThreads              (* [threads], line 130 *)
| RThreadArgs           (* [thread_args], line 131 *)
| RThread (i : Z).      (* the running thread [i], line 145 *)

Inductive diagnostic : Type :=
| MsgNotPositive        (* "Error: Both arguments must be positive integers" *)
| MsgAllocation         (* "Error: Memory allocation failed" *)
| MsgCreate (i : Z).    (* "Error: Failed to create thread %d" *)

Inductive event : Type :=
| Acquire (r : resource)    (* malloc, pthread_barrier_init, pthread_create *)
| Release (r : resource)    (* free, pthread_barrier_destroy, pthread_join *)
| Stderr (d : diagnostic).

Record system (T : Type) : Type := mkSystem {
  malloc_partial_sums : bool;
  malloc_threads : bool;
  malloc_thread_args : bool;
  pthread_create : Z → bool;
  fresh_memory : list T
}.

Arguments malloc_partial_sums {T} _.
Arguments malloc_threads {T} _.
Arguments malloc_thread_args {T} _.
Arguments pthread_create {T} _ _.
Arguments fresh_memory {T} _.

Record run (T : Type) : Type := mkRun {
  exit_code : Z;
  trace : list event;
  total : option T    (* the total thread 0 prints, line 92 *)
}.

Arguments mkRun {T} _ _ _.
Arguments exit_code {T} _.
Arguments trace {T} _.
Arguments total {T} _.

#[global] Instance resource_eq_dec : EqDecision resource.
Proof. solve_decision. Defined.

(** The creation loop, lines 140-152: the events of the threads created,
    and the index of the first creation that failed, if any. *)
Fixpoint create_threads {T : Type} (sys : system T) (ids : list Z)
  : list event * option Z :=
  match ids with
  | [] => ([], None)
  | i :: ids' =>
      if pthread_create sys i then
        let '(evs, failed) := create_threads sys ids' in
        (Acquire (RThread i) :: evs, failed)
      else ([], Some i)
  end.

Definition main {T : Type} {ops : FloatOps T} (sys : system T) (fuel : nat) (m n : Z)
  : outcome (run T) :=
  if (m <=? 0) || (n <=? 0) then
    Done (mkRun 1 [Stderr MsgNotPositive] None)
  else if negb (malloc_partial_sums sys) then
    Done (mkRun 1 [Stderr MsgAllocation] None)
  else
    let t0 := [Acquire RPartialSums; Acquire RBarrier]
              ++ (if malloc_threads sys then [Acquire RThreads] else [])
              ++ (if malloc_thread_args sys then [Acquire RThreadArgs] else []) in
    if negb (malloc_threads sys) || negb (malloc_thread_args sys) then
      Done (mkRun 1 (t0 ++ [Stderr MsgAllocation; Release RPartialSums]) None)
    else
      match create_threads sys (seqZ 0 m) with
      | (created, Some i) =>
          Done (mkRun 1 (t0 ++ created
                         ++ [Stderr (MsgCreate i); Release RPartialSums;
                             Release RThreads; Release RThreadArgs]) None)
      | (created, None) =>
          (* lines 154-165: the joins return when the threads have finished *)
          v ← compute_quadruple_roots fuel m n (fresh_memory sys);
          Done (mkRun 0 (t0 ++ created
                         ++ ((λ i, Release (RThread i)) <$> seqZ 0 m)
                         ++ [Release RBarrier; Release RPartialSums;
                             Release RThreads; Release RThreadArgs])
                      (Some v))
      end.

(** The resources acquired and not yet released after a trace. *)
Definition live_after (tr : list event) : list resource :=
  foldl (λ held e,
           match e with
           | Acquire r => held ++ [r]
           | Release r => filter (λ r', r' ≠ r) held
           | Stderr _ => held
           end) [] tr.

(** A resource that a trace acquires and never releases. *)
Definition leaked (tr : list event) (r : resource) : Prop :=
  Acquire r ∈ tr ∧ Release r ∉ tr.

(** ** Basic facts on [int] arithmetic *)

Lemma in_int_true z : INT_MIN ≤ z ≤ INT_MAX → in_int z = true.
Proof. unfold in_int. intros [H1 H2]. apply andb_true_iff. split; lia. Qed.

Lemma int_of_in z : INT_MIN ≤ z ≤ INT_MAX → int_of z = Done z.
Proof. intros H. unfold int_of. by rewrite in_int_true. Qed.

Lemma int_of_done z r : int_of z = Done r → r = z ∧ INT_MIN ≤ z ≤ INT_MAX.
Proof.
  unfold int_of, in_int. destruct (_ && _) eqn:E; [ | discriminate ].
  intros [= <-]. apply andb_true_iff in E. lia.
Qed.

Lemma quot_bounds a b : 0 ≤ a → 0 < b → 0 ≤ a ÷ b ≤ a.
Proof.
  intros Ha Hb. rewrite Z.quot_div_nonneg by lia. split.
  - apply Z.div_pos; lia.
  - apply Z.div_le_upper_bound; nia.
Qed.

Lemma int_div_pos a b :
  0 ≤ a ≤ INT_MAX → 0 < b → int_div a b = Done (a ÷ b).
Proof.
  intros Ha Hb. unfold int_div.
  destruct (Z.eqb_spec b 0); [ lia | ].
  apply int_of_in. pose proof (quot_bounds a b). unfold INT_MIN. lia.
Qed.

Lemma int_rem_nonneg a b :
  0 ≤ a ≤ INT_MAX → 0 < b → int_rem a b = Done (a `mod` b).
Proof.
  intros Ha Hb. unfold int_rem.
  destruct (Z.eqb_spec b 0); [ lia | ].
  pose proof (quot_bounds a b). rewrite in_int_true by (unfold INT_MIN; lia).
  by rewrite Z.rem_mod_nonneg by lia.
Qed.

(** ** Reasoning about outcomes *)

Lemma bind_Done {A B : Type} (a : A) (f : A → outcome B) :
  (x ← Done a; f x) = f a.
Proof. reflexivity. Qed.

Lemma bind_is_Done {A B : Type} (x : outcome A) (f : A → outcome B) (b : B) :
  (a ← x; f a) = Done b → ∃ a, x = Done a ∧ f a = Done b.
Proof. destruct x as [a| |]; [ by exists a | discriminate | discriminate ]. Qed.

Lemma bind_not_Done {A B : Type} (x : outcome A) (f : A → outcome B) :
  ¬ is_done x → ¬ is_done (a ← x; f a).
Proof. destruct x; simpl; tauto. Qed.

(** ** The ranges of phase 1 *)

Section Ranges.
Variables m n : Z.
Hypothesis Hm : 1 ≤ m ≤ INT_MAX.
Hypothesis Hn : 1 ≤ n ≤ INT_MAX.

Lemma chunk_bounds : 0 ≤ n ÷ m ∧ m * (n ÷ m) ≤ n.
Proof using Hm Hn.
  split.
  - apply quot_bounds; lia.
  - apply Z.mul_quot_le; lia.
Qed.

Lemma thread_range_eq tid :
  0 ≤ tid < m →
  thread_range (mkThreadArgs tid m n)
  = Done (tid * (n ÷ m) + 1, if tid =? m - 1 then n else (tid + 1) * (n ÷ m)).
Proof using Hm Hn.
  intros Ht. pose proof chunk_bounds as [Hq Hmq].
  unfold thread_range; cbn [thread_id total_threads max_number].
  rewrite int_div_pos by lia. rewrite bind_Done. set (q := n ÷ m) in *.
  unfold int_mul, int_add, int_sub.
  assert (0 ≤ tid * q ≤ (m - 1) * q) by nia.
  assert ((m - 1) * q + 1 ≤ INT_MAX) by (unfold INT_MAX in *; nia).
  rewrite (int_of_in (tid * q)) by (unfold INT_MIN; lia). rewrite bind_Done.
  rewrite (int_of_in (tid * q + 1)) by (unfold INT_MIN; lia). rewrite bind_Done.
  rewrite (int_of_in (tid + 1)) by (unfold INT_MIN; lia). rewrite !bind_Done.
  rewrite (int_of_in ((tid + 1) * q)) by (unfold INT_MIN; nia). rewrite bind_Done.
  rewrite (int_of_in (m - 1)) by (unfold INT_MIN; lia). by rewrite bind_Done.
Qed.

Lemma assigned_iff tid i :
  0 ≤ tid < m →
  assigned tid m n i ↔
  tid * (n ÷ m) + 1 ≤ i ≤ (if tid =? m - 1 then n else (tid + 1) * (n ÷ m)).
Proof using Hm Hn. intros Ht. unfold assigned. by rewrite thread_range_eq. Qed.

Lemma assigned_inside tid i :
  0 ≤ tid < m → assigned tid m n i → 1 ≤ i ≤ n.
Proof using Hm Hn.
  intros Ht Ha. apply assigned_iff in Ha; [ | done ].
  pose proof chunk_bounds as [Hq Hmq].
  destruct (Z.eqb_spec tid (m - 1)); nia.
Qed.

Lemma assigned_unique tid tid' i :
  0 ≤ tid < m → 0 ≤ tid' < m →
  assigned tid m n i → assigned tid' m n i → tid = tid'.
Proof using Hm Hn.
  intros Ht Ht' Ha Ha'.
  apply assigned_iff in Ha; [ | done ]. apply assigned_iff in Ha'; [ | done ].
  pose proof chunk_bounds as [Hq Hmq].
  destruct (Z.eqb_spec tid (m - 1)), (Z.eqb_spec tid' (m - 1)); nia.
Qed.

Lemma assigned_exists i :
  1 ≤ i ≤ n → ∃ tid, 0 ≤ tid < m ∧ assigned tid m n i.
Proof using Hm Hn.
  intros Hi. pose proof chunk_bounds as [Hq Hmq]. set (q := n ÷ m) in *.
  destruct (Z_le_gt_dec i ((m - 1) * q)) as [Hle|Hgt].
  - assert (0 < q) by nia.
    exists ((i - 1) `div` q).
    pose proof (Z.div_mod (i - 1) q ltac:(lia)).
    pose proof (Z.mod_pos_bound (i - 1) q ltac:(lia)).
    assert (0 ≤ (i - 1) `div` q) by (apply Z.div_pos; lia).
    assert ((i - 1) `div` q < m - 1) by (apply Z.div_lt_upper_bound; nia).
    split; [ lia | ]. apply assigned_iff; [ lia | ].
    destruct (Z.eqb_spec ((i - 1) `div` q) (m - 1)); nia.
  - exists (m - 1). split; [ lia | ]. apply assigned_iff; [ lia | ].
    rewrite Z.eqb_refl. lia.
Qed.
End Ranges.

(** The ranges of the four threads for [n = 100]. *)
Example ranges_4_100 :
  thread_range <$> thread_args 4 100
  = [Done (1, 25); Done (26, 50); Done (51, 75); Done (76, 100)].
Proof. reflexivity. Qed.

(** ** The summation loop of phase 1 *)

Section SumLoop.
Context {T : Type} {ops : FloatOps T}.

Lemma sum_loop_done fuel : ∀ i end_ acc,
  INT_MIN ≤ i → end_ < INT_MAX →
  (Z.to_nat (end_ - i + 1) < fuel)%nat →
  sum_loop fuel i end_ acc
  = Done (foldl add acc (pow025 <$> seqZ i (end_ - i + 1))).
Proof.
  induction fuel as [|fuel IH]; intros i end_ acc Hi He Hf; [ lia | ].
  cbn [sum_loop]. destruct (Z.leb_spec i end_) as [Hle|Hgt].
  - unfold int_add. rewrite int_of_in by lia. rewrite bind_Done.
    rewrite IH by lia.
    rewrite (seqZ_cons i) by lia. cbn [fmap list_fmap foldl].
    replace (Z.succ i) with (i + 1) by lia.
    by replace (Z.pred (end_ - i + 1)) with (end_ - (i + 1) + 1) by lia.
  - by rewrite seqZ_nil by lia.
Qed.

(** With [end == INT_MAX] the test [i <= end] cannot fail, and [i++]
    overflows once [i] reaches it: the loop never completes. *)
Lemma sum_loop_int_max fuel : ∀ i acc,
  i ≤ INT_MAX → ¬ is_done (sum_loop fuel i INT_MAX acc).
Proof.
  induction fuel as [|fuel IH]; intros i acc Hi; [ simpl; tauto | ].
  cbn [sum_loop]. destruct (Z.leb_spec i INT_MAX); [ | lia ].
  unfold int_add, int_of. destruct (in_int (i + 1)) eqn:E.
  - rewrite bind_Done. apply IH.
    unfold in_int in E. apply andb_true_iff in E. lia.
  - simpl. tauto.
Qed.

Lemma foldl_add_start
    (add_assoc : ∀ x y z : T, add (add x y) z = add x (add y z))
    (add_zero_r : ∀ x : T, add x zero = x) (l : list T) : ∀ a,
  foldl add a l = add a (foldl add zero l).
Proof.
  induction l as [|x l IH]; intros a; cbn [foldl].
  - by rewrite add_zero_r.
  - rewrite (IH (add a x)), (IH (add zero x)).
    by rewrite <- !add_assoc, add_zero_r.
Qed.

Lemma foldl_add_shift
    (add_assoc : ∀ x y z : T, add (add x y) z = add x (add y z))
    (l : list T) : ∀ a b,
  foldl add (add a b) l = add a (foldl add b l).
Proof.
  induction l as [|x l IH]; intros a b; cbn [foldl]; [ done | ].
  by rewrite <- IH, add_assoc.
Qed.

End SumLoop.

(** ** Threads that each fill their own slot *)

Section RunThreads.
Context {T : Type} {ops : FloatOps T}.
Variable body : ThreadArgs → list T → outcome (list T).
Variables before after : list T.

Lemma mixed_start : mixed before after [] before.
Proof.
  split; [ done | ]. intros i.
  destruct (decide _) as [Hin|]; [ | done ]. by apply elem_of_nil in Hin.
Qed.

Lemma mixed_ext done done' s :
  (∀ i, i ∈ done ↔ i ∈ done') → mixed before after done s → mixed before after done' s.
Proof.
  intros Heq [Hlen Hs]. split; [ done | ]. intros i. rewrite Hs.
  destruct (decide (Z.of_nat i ∈ done)) as [Hi|Hi], (decide (Z.of_nat i ∈ done')) as [Hi'|Hi'];
    try done; exfalso; apply Heq in Hi || apply Heq in Hi'; tauto.
Qed.

Lemma mixed_all done s :
  length after = length before →
  (∀ i : nat, (i < length before)%nat → Z.of_nat i ∈ done) →
  mixed before after done s → s = after.
Proof.
  intros Hlen Hall [Hs Hlook]. apply list_eq. intros i. rewrite Hlook.
  destruct (decide (Z.of_nat i ∈ done)) as [|Hn]; [ done | ].
  destruct (decide (i < length before)%nat) as [Hlt|Hge].
  - by apply Hall in Hlt.
  - rewrite !lookup_ge_None_2 by lia. done.
Qed.

Lemma run_threads_mixed (ts : list ThreadArgs) : ∀ done s,
  (∀ a d s0, a ∈ ts → thread_id a ∉ d → mixed before after d s0 →
     ∃ s1, body a s0 = Done s1 ∧ mixed before after (thread_id a :: d) s1) →
  NoDup (thread_id <$> ts) →
  (∀ a, a ∈ ts → thread_id a ∉ done) →
  mixed before after done s →
  ∃ s', run_threads body ts s = Done s'
        ∧ mixed before after ((thread_id <$> ts) ++ done) s'.
Proof.
  induction ts as [|a ts IH]; intros done s Hbody Hnd Hfresh Hs.
  - exists s. by split.
  - cbn [fmap list_fmap] in Hnd. apply NoDup_cons in Hnd as [Ha Hnd].
    destruct (Hbody a done s) as (s1 & Hrun & Hs1);
      [ left | apply Hfresh; left | done | ].
    destruct (IH (thread_id a :: done) s1) as (s' & Hrun' & Hs'); [ | done | | done | ].
    + intros b d s0 Hb. apply Hbody. by right.
    + intros b Hb Hin. apply elem_of_cons in Hin as [Heq|Hin].
      * apply Ha. rewrite <- Heq. apply list_elem_of_fmap. by exists b.
      * apply (Hfresh b); [ by right | done ].
    + exists s'. split.
      * cbn [run_threads]. rewrite Hrun. by rewrite bind_Done.
      * revert Hs'. apply mixed_ext. intros i. cbn [fmap list_fmap].
        rewrite !elem_of_app, !elem_of_cons. tauto.
Qed.

Lemma mixed_insert done s tid v :
  0 ≤ tid < Z.of_nat (length before) →
  mixed before after done s →
  after !! Z.to_nat tid = Some v →
  mixed before after (tid :: done) (<[Z.to_nat tid := v]> s).
Proof.
  intros Ht [Hlen Hs] Hv. split; [ by rewrite length_insert | ].
  intros i. rewrite list_lookup_insert, Hs.
  destruct (decide (Z.to_nat tid = i ∧ (Z.to_nat tid < length s)%nat)) as [[<- _]|Hne].
  - rewrite decide_True; [ done | ]. rewrite Z2Nat.id by lia. by left.
  - assert (Z.of_nat i ≠ tid) by lia.
    destruct (decide (Z.of_nat i ∈ done)) as [Hi|Hi].
    + rewrite decide_True; [ done | by right ].
    + rewrite decide_False; [ done | ].
      intros [Heq|Hin]%elem_of_cons; done.
Qed.

Lemma mixed_skip done s tid :
  0 ≤ tid →
  mixed before after done s →
  after !! Z.to_nat tid = before !! Z.to_nat tid →
  mixed before after (tid :: done) s.
Proof.
  intros Ht [Hlen Hs] Hv. split; [ done | ].
  intros i. rewrite Hs.
  destruct (decide (Z.of_nat i ∈ done)) as [Hi|Hi].
  - rewrite decide_True; [ done | by right ].
  - destruct (decide (Z.of_nat i = tid)) as [<-|Hne].
    + rewrite decide_True; [ | by left ]. by rewrite Nat2Z.id in Hv.
    + rewrite decide_False; [ done | ].
      intros [Heq|Hin]%elem_of_cons; done.
Qed.

Lemma mixed_lookup_fresh done s tid :
  0 ≤ tid → tid ∉ done → mixed before after done s →
  s !! Z.to_nat tid = before !! Z.to_nat tid.
Proof.
  intros Ht Hn [_ Hs]. rewrite Hs, decide_False; [ done | ].
  by rewrite Z2Nat.id by lia.
Qed.

Lemma mixed_lookup_same done s i :
  0 ≤ i → after !! Z.to_nat i = before !! Z.to_nat i →
  mixed before after done s →
  s !! Z.to_nat i = before !! Z.to_nat i.
Proof. intros Hi Hsame [_ Hs]. rewrite Hs. by destruct (decide _). Qed.

End RunThreads.

(** ** Loads and stores *)

Section Array.
Context {T : Type} {ops : FloatOps T}.

Lemma in_bounds_true (s : list T) i :
  0 ≤ i < Z.of_nat (length s) → in_bounds s i = true.
Proof. intros Hi. unfold in_bounds. apply andb_true_iff. lia. Qed.

Lemma in_bounds_inv (s : list T) i :
  in_bounds s i = true → 0 ≤ i < Z.of_nat (length s).
Proof. unfold in_bounds. intros Hi%andb_true_iff. lia. Qed.

Lemma load_Done (s : list T) i v :
  0 ≤ i → s !! Z.to_nat i = Some v → load s i = Done v.
Proof.
  intros Hi Hv. unfold load.
  pose proof (lookup_lt_Some _ _ _ Hv).
  rewrite in_bounds_true by lia. by rewrite Hv.
Qed.

Lemma load_inv (s : list T) i v :
  load s i = Done v → 0 ≤ i < Z.of_nat (length s) ∧ s !! Z.to_nat i = Some v.
Proof.
  unfold load. destruct (in_bounds s i) eqn:E; [ | discriminate ].
  apply in_bounds_inv in E. destruct (s !! Z.to_nat i); [ | discriminate ].
  by intros [= ->].
Qed.

Lemma store_Done (s : list T) i v :
  0 ≤ i < Z.of_nat (length s) → store s i v = Done (<[Z.to_nat i := v]> s).
Proof. intros Hi. unfold store. by rewrite in_bounds_true. Qed.

Lemma store_inv (s s' : list T) i v :
  store s i v = Done s' →
  0 ≤ i < Z.of_nat (length s) ∧ s' = <[Z.to_nat i := v]> s.
Proof.
  unfold store. destruct (in_bounds s i) eqn:E; [ | discriminate ].
  apply in_bounds_inv in E. by intros [= <-].
Qed.

Lemma thread_args_ids m n : thread_id <$> thread_args m n = seqZ 0 m.
Proof.
  unfold thread_args. rewrite <- list_fmap_compose.
  rewrite <- (list_fmap_id (seqZ 0 m)) at 2. by apply list_fmap_ext.
Qed.

Lemma elem_of_thread_args a m n :
  a ∈ thread_args m n ↔ ∃ tid, a = mkThreadArgs tid m n ∧ 0 ≤ tid < m.
Proof.
  unfold thread_args. rewrite list_elem_of_fmap.
  split; intros (tid & -> & Ht); exists tid; (split; [ done | ]).
  - apply elem_of_seqZ in Ht. lia.
  - apply elem_of_seqZ. lia.
Qed.

Lemma slots_covered m (i : nat) :
  (i < Z.to_nat m)%nat → Z.of_nat i ∈ seqZ 0 m.
Proof. intros Hi. apply elem_of_seqZ. lia. Qed.

End Array.

(** ** Phase 1 of all threads *)

Section Phase1.
Context {T : Type} {ops : FloatOps T}.
Variables m n : Z.
Hypothesis Hm : 1 ≤ m ≤ INT_MAX.
Hypothesis Hn : 1 ≤ n < INT_MAX.

Lemma phase1_thread fuel tid (s : list T) :
  0 ≤ tid < m → length s = Z.to_nat m → (Z.to_nat n < fuel)%nat →
  phase1 fuel (mkThreadArgs tid m n) s
  = Done (<[Z.to_nat tid := partial_sum m n tid]> s).
Proof using Hm Hn.
  intros Ht Hlen Hfuel. unfold phase1.
  rewrite (thread_range_eq m n) by lia. rewrite bind_Done.
  pose proof (chunk_bounds m n ltac:(lia) ltac:(lia)) as [Hq Hmq].
  set (start := tid * (n ÷ m) + 1).
  set (end_ := if tid =? m - 1 then n else (tid + 1) * (n ÷ m)).
  assert (1 ≤ start) by (unfold start; nia).
  assert (end_ ≤ n) by (unfold end_; destruct (Z.eqb_spec tid (m - 1)); nia).
  rewrite sum_loop_done by (unfold INT_MIN; lia). rewrite bind_Done.
  cbn [thread_id]. by rewrite store_Done by lia.
Qed.

Lemma phase1_all fuel (init : list T) ts :
  length init = Z.to_nat m → (Z.to_nat n < fuel)%nat →
  ts ≡ₚ thread_args m n →
  run_threads (phase1 fuel) ts init = Done (partial_sum m n <$> seqZ 0 m).
Proof using Hm Hn.
  intros Hlen Hfuel Hperm.
  set (after := partial_sum m n <$> seqZ 0 m).
  assert (Hids : thread_id <$> ts ≡ₚ seqZ 0 m).
  { rewrite <- (thread_args_ids m n). by apply fmap_Permutation. }
  destruct (run_threads_mixed (phase1 fuel) init after ts [] init)
    as (s' & Hrun & Hs').
  - intros a d s0 Ha Hd Hs0.
    rewrite Hperm in Ha. apply elem_of_thread_args in Ha as (tid & -> & Ht).
    cbn [thread_id] in *. destruct Hs0 as [Hl0 Hlook].
    rewrite phase1_thread by lia. eexists; split; [ done | ].
    apply mixed_insert; [ lia | by split | ].
    unfold after. rewrite list_lookup_fmap, lookup_seqZ_lt by lia.
    cbn. do 2 f_equal. lia.
  - rewrite Hids. apply NoDup_seqZ.
  - intros a _ Hin. by apply elem_of_nil in Hin.
  - apply mixed_start.
  - rewrite Hrun. f_equal. eapply mixed_all; [ | | exact Hs' ].
    + unfold after. rewrite length_fmap, length_seqZ. lia.
    + intros i Hi. rewrite app_nil_r, Hids. apply slots_covered. lia.
Qed.

(** The order in which the threads run phase 1 does not matter. *)
Lemma phase1_order fuel (init : list T) ts1 ts2 :
  length init = Z.to_nat m → (Z.to_nat n < fuel)%nat →
  ts1 ≡ₚ thread_args m n → ts2 ≡ₚ thread_args m n →
  run_threads (phase1 fuel) ts1 init = run_threads (phase1 fuel) ts2 init.
Proof using Hm Hn.
  intros Hlen Hfuel H1 H2.
  by rewrite (phase1_all fuel init ts1), (phase1_all fuel init ts2).
Qed.

End Phase1.

(** ** One reduction round *)

Section Round.
Context {T : Type} {ops : FloatOps T}.

(** What a round body does when its [int] arithmetic is defined. *)
Lemma reduce_round_eq step tid m n (s : list T) :
  1 ≤ step → 2 * step ≤ INT_MAX → 0 ≤ tid → tid + step ≤ INT_MAX →
  reduce_round step (mkThreadArgs tid m n) s
  = if decide (tid `mod` (2 * step) = 0 ∧ tid + step < m) then
      x ← load s tid; y ← load s (tid + step); store s tid (add x y)
    else Done s.
Proof.
  intros Hs Hs2 Ht Hts. unfold reduce_round; cbn [thread_id total_threads].
  unfold int_mul. rewrite int_of_in by (unfold INT_MIN; lia). rewrite bind_Done.
  rewrite int_rem_nonneg by lia. rewrite bind_Done.
  destruct (Z.eqb_spec (tid `mod` (2 * step)) 0) as [Hz|Hnz].
  - unfold int_add. rewrite int_of_in by (unfold INT_MIN; lia). rewrite bind_Done.
    destruct (Z.ltb_spec (tid + step) m).
    + by rewrite decide_True.
    + rewrite decide_False; [ done | lia ].
  - rewrite decide_False; [ done | tauto ].
Qed.

(** What a round body did when it completed, whatever the bounds. *)
Lemma reduce_round_inv step tid m n (s s' : list T) :
  1 ≤ step → 0 ≤ tid →
  reduce_round step (mkThreadArgs tid m n) s = Done s' →
  (tid `mod` (2 * step) = 0 ∧ tid + step < m ∧
   ∃ x y, s !! Z.to_nat tid = Some x ∧ s !! Z.to_nat (tid + step) = Some y
          ∧ tid + step < Z.of_nat (length s)
          ∧ s' = <[Z.to_nat tid := add x y]> s)
  ∨ (¬ (tid `mod` (2 * step) = 0 ∧ tid + step < m) ∧ s' = s).
Proof.
  intros Hs Ht. unfold reduce_round; cbn [thread_id total_threads].
  intros (d & Hd & Hrun)%bind_is_Done.
  apply int_of_done in Hd as [-> Hd].
  apply bind_is_Done in Hrun as (r & Hr & Hrun).
  unfold int_rem in Hr. destruct (Z.eqb_spec (2 * step) 0); [ lia | ].
  destruct (in_int _); [ | discriminate ]. injection Hr as <-.
  rewrite Z.rem_mod_nonneg in Hrun by lia.
  destruct (Z.eqb_spec (tid `mod` (2 * step)) 0) as [Hz|Hnz].
  - apply bind_is_Done in Hrun as (p & Hp & Hrun).
    apply int_of_done in Hp as [-> Hp].
    destruct (Z.ltb_spec (tid + step) m).
    + left. split; [ done | split; [ done | ] ].
      apply bind_is_Done in Hrun as (x & Hx & Hrun).
      apply bind_is_Done in Hrun as (y & Hy & Hrun).
      apply load_inv in Hx as [_ Hx]. apply load_inv in Hy as [Hby Hy].
      apply store_inv in Hrun as [_ ->]. exists x, y. repeat split; done || lia.
    + right. injection Hrun as <-. split; [ lia | done ].
  - right. injection Hrun as <-. split; [ tauto | done ].
Qed.

Lemma combine_round_length step (sums : list T) :
  length (combine_round step sums) = length sums.
Proof. unfold combine_round. apply length_imap. Qed.

Lemma combine_round_lookup step (sums : list T) (j : nat) x :
  sums !! j = Some x →
  combine_round step sums !! j
  = Some (if decide (Z.of_nat j `mod` (2 * step) = 0) then
            match sums !! (j + Z.to_nat step)%nat with
            | Some y => add x y
            | None => x
            end
          else x).
Proof. intros Hx. unfold combine_round. by rewrite list_lookup_imap, Hx. Qed.

Lemma combine_round_lookup_other step (sums : list T) (j : nat) :
  Z.of_nat j `mod` (2 * step) ≠ 0 →
  combine_round step sums !! j = sums !! j.
Proof.
  intros Hj. unfold combine_round. rewrite list_lookup_imap.
  destruct (sums !! j); [ | done ]. cbn. by rewrite decide_False.
Qed.

Lemma partner_not_active step tid :
  1 ≤ step → 0 ≤ tid → tid `mod` (2 * step) = 0 →
  (tid + step) `mod` (2 * step) = step.
Proof.
  intros Hs Ht Hz.
  rewrite <- Zplus_mod_idemp_l, Hz, Z.add_0_l.
  apply Z.mod_small. lia.
Qed.

(** The round of all threads, run in any order [ts]. *)
Lemma round_all step m n (sums : list T) ts :
  1 ≤ step → step < m → m ≤ TWO_30 → length sums = Z.to_nat m →
  ts ≡ₚ thread_args m n →
  run_threads (reduce_round step) ts sums = Done (combine_round step sums).
Proof.
  intros Hs Hsm Hm Hlen Hperm. unfold TWO_30 in Hm.
  set (after := combine_round step sums).
  assert (Hids : thread_id <$> ts ≡ₚ seqZ 0 m).
  { rewrite <- (thread_args_ids m n). by apply fmap_Permutation. }
  destruct (run_threads_mixed (reduce_round step) sums after ts [] sums)
    as (s' & Hrun & Hs').
  - intros a d s0 Ha Hd Hs0.
    rewrite Hperm in Ha. apply elem_of_thread_args in Ha as (tid & -> & Ht).
    cbn [thread_id] in *.
    rewrite reduce_round_eq by (unfold INT_MAX; lia).
    destruct (lookup_lt_is_Some_2 sums (Z.to_nat tid) ltac:(lia)) as [x Hx].
    pose proof (combine_round_lookup step sums _ x Hx) as Hafter.
    rewrite Z2Nat.id in Hafter by lia. fold after in Hafter.
    destruct (decide (tid `mod` (2 * step) = 0 ∧ tid + step < m)) as [[Hz Hp]|Hno].
    + destruct (lookup_lt_is_Some_2 sums (Z.to_nat (tid + step)) ltac:(lia)) as [y Hy].
      rewrite decide_True in Hafter by done.
      replace (Z.to_nat tid + Z.to_nat step)%nat
        with (Z.to_nat (tid + step)) in Hafter by lia.
      rewrite Hy in Hafter.
      rewrite (load_Done s0 tid x); [ | lia | ].
      2:{ by rewrite (mixed_lookup_fresh sums after d s0 tid) by (done || lia). }
      rewrite bind_Done.
      rewrite (load_Done s0 (tid + step) y); [ | lia | ].
      2:{ rewrite (mixed_lookup_same sums after d s0 (tid + step));
            [ done | lia | | done ].
          unfold after. apply combine_round_lookup_other.
          rewrite Z2Nat.id by lia. rewrite partner_not_active by (done || lia). lia. }
      rewrite bind_Done. destruct Hs0 as [Hl0 Hlook].
      rewrite store_Done by lia. eexists; split; [ done | ].
      apply mixed_insert; [ lia | by split | done ].
    + eexists; split; [ done | ]. apply mixed_skip; [ lia | done | ].
      rewrite Hafter, Hx. f_equal.
      destruct (decide (tid `mod` (2 * step) = 0)) as [Hz|]; [ | done ].
      rewrite lookup_ge_None_2; [ done | lia ].
  - rewrite Hids. apply NoDup_seqZ.
  - intros a _ Hin. by apply elem_of_nil in Hin.
  - apply mixed_start.
  - rewrite Hrun. f_equal. eapply mixed_all; [ | | exact Hs' ].
    + apply combine_round_length.
    + intros i Hi. rewrite app_nil_r, Hids. apply slots_covered. lia.
Qed.

(** The order in which the threads run a round does not matter. *)
Lemma round_order step m n (sums : list T) ts1 ts2 :
  1 ≤ step → step < m → m ≤ TWO_30 → length sums = Z.to_nat m →
  ts1 ≡ₚ thread_args m n → ts2 ≡ₚ thread_args m n →
  run_threads (reduce_round step) ts1 sums
  = run_threads (reduce_round step) ts2 sums.
Proof.
  intros Hs Hsm Hm Hlen H1 H2.
  by rewrite (round_all step m n sums ts1), (round_all step m n sums ts2).
Qed.

End Round.

(** ** The slots a thread touches in a round *)

Lemma round_partner_Some step tid m n p :
  1 ≤ step → 0 ≤ tid →
  round_partner step (mkThreadArgs tid m n) = Some p →
  tid `mod` (2 * step) = 0 ∧ p = tid + step ∧ tid + step < m.
Proof.
  intros Hs Ht. unfold round_partner; cbn [thread_id total_threads].
  unfold int_mul, int_add, int_of.
  destruct (in_int (2 * step)); [ | discriminate ]. rewrite bind_Done.
  unfold int_rem. destruct (Z.eqb_spec (2 * step) 0); [ lia | ].
  destruct (in_int (tid ÷ (2 * step))); [ | discriminate ].
  rewrite Z.rem_mod_nonneg by lia.
  destruct (Z.eqb_spec (tid `mod` (2 * step)) 0); [ | discriminate ].
  destruct (in_int (tid + step)); [ | discriminate ].
  destruct (Z.ltb_spec (tid + step) m); [ | discriminate ].
  by intros [= <-].
Qed.

Lemma round_partner_active step tid m n :
  1 ≤ step → 2 * step ≤ INT_MAX → 0 ≤ tid → tid + step ≤ INT_MAX →
  round_partner step (mkThreadArgs tid m n)
  = if decide (tid `mod` (2 * step) = 0 ∧ tid + step < m)
    then Some (tid + step) else None.
Proof.
  intros Hs Hs2 Ht Hts. unfold round_partner; cbn [thread_id total_threads].
  unfold int_mul. rewrite int_of_in by (unfold INT_MIN; lia). rewrite bind_Done.
  rewrite int_rem_nonneg by lia.
  destruct (Z.eqb_spec (tid `mod` (2 * step)) 0) as [Hz|Hnz].
  - unfold int_add. rewrite int_of_in by (unfold INT_MIN; lia).
    destruct (Z.ltb_spec (tid + step) m).
    + by rewrite decide_True.
    + rewrite decide_False; [ done | lia ].
  - rewrite decide_False; [ done | tauto ].
Qed.

Lemma round_accesses_elem step tid m n slot :
  1 ≤ step → 0 ≤ tid →
  slot ∈ round_accesses step (mkThreadArgs tid m n) →
  tid `mod` (2 * step) = 0 ∧ tid + step < m ∧ (slot = tid ∨ slot = tid + step).
Proof.
  intros Hs Ht. unfold round_accesses, round_reads, round_writes.
  destruct (round_partner _ _) as [p|] eqn:Hp; cbn [thread_id].
  - apply round_partner_Some in Hp as (Hz & -> & Hlt); [ | done | done ].
    rewrite elem_of_app, !elem_of_cons, !elem_of_nil. tauto.
  - rewrite app_nil_r. by intros ?%elem_of_nil.
Qed.

(** The writes and reads a completed round body made are those of
    [round_writes] and [round_reads]. *)
Lemma reduce_round_footprint {T : Type} {ops : FloatOps T} step args (s s' : list T) :
  reduce_round step args s = Done s' →
  match round_partner step args with
  | Some p => ∃ x y, s !! Z.to_nat (thread_id args) = Some x
                     ∧ s !! Z.to_nat p = Some y
                     ∧ s' = <[Z.to_nat (thread_id args) := add x y]> s
  | None => s' = s
  end.
Proof.
  unfold reduce_round, round_partner.
  destruct (int_mul 2 step) as [d| |]; [ | discriminate | discriminate ].
  rewrite !bind_Done.
  destruct (int_rem (thread_id args) d) as [r| |]; [ | discriminate | discriminate ].
  rewrite bind_Done. destruct (r =? 0); [ | by intros [= <-] ].
  destruct (int_add (thread_id args) step) as [p| |]; [ | discriminate | discriminate ].
  rewrite bind_Done. destruct (p <? total_threads args); [ | by intros [= <-] ].
  intros (x & Hx & Hrun)%bind_is_Done.
  apply bind_is_Done in Hrun as (y & Hy & Hrun).
  apply load_inv in Hx as [_ Hx]. apply load_inv in Hy as [_ Hy].
  apply store_inv in Hrun as [_ ->]. by exists x, y.
Qed.

(** ** The reduction loop *)

Section Loop.
Context {T : Type} {ops : FloatOps T}.
Variables m n : Z.
Hypothesis Hm : 1 ≤ m ≤ TWO_30.

Lemma combine_rounds_length k : ∀ step (sums : list T),
  length (combine_rounds k step sums) = length sums.
Proof.
  induction k as [|k IH]; intros step sums; cbn [combine_rounds]; [ done | ].
  by rewrite IH, combine_round_length.
Qed.

Lemma rounds_left k :
  0 ≤ k → 2 ^ k < m →
  Z.to_nat (Z.log2_up m - k) = S (Z.to_nat (Z.log2_up m - (k + 1))).
Proof using Hm.
  intros Hk Hlt. apply Z.log2_up_lt_pow2 in Hlt; lia.
Qed.

Lemma rounds_over k :
  0 ≤ k → m ≤ 2 ^ k → Z.to_nat (Z.log2_up m - k) = O.
Proof using Hm.
  intros Hk Hge. apply Z.log2_up_le_pow2 in Hge; lia.
Qed.

(** The loop runs [log2_up m - k] more rounds from step [2^k]. *)
Lemma reduction_loop_from fuel : ∀ k rounds (sums : list T),
  0 ≤ k → length sums = Z.to_nat m →
  (Z.to_nat (Z.log2_up m - k) < fuel)%nat →
  reduction_loop fuel m n (2 ^ k) rounds sums
  = Done (combine_rounds (Z.to_nat (Z.log2_up m - k)) (2 ^ k) sums,
          (rounds + Z.to_nat (Z.log2_up m - k))%nat).
Proof using Hm.
  induction fuel as [|fuel IH]; intros k rounds sums Hk Hlen Hfuel; [ lia | ].
  cbn [reduction_loop]. assert (0 < 2 ^ k) by (apply Z.pow_pos_nonneg; lia).
  destruct (Z.ltb_spec (2 ^ k) m) as [Hlt|Hge].
  - rewrite (round_all (2 ^ k) m n sums (thread_args m n)) by (done || lia).
    rewrite bind_Done. unfold int_mul. unfold TWO_30 in Hm.
    rewrite int_of_in by (unfold INT_MIN, INT_MAX; lia). rewrite bind_Done.
    replace (2 ^ k * 2) with (2 ^ (k + 1)) by (rewrite Z.pow_add_r by lia; lia).
    rewrite rounds_left in * by done.
    rewrite IH; [ | lia | by rewrite combine_round_length | lia ].
    cbn [combine_rounds].
    replace (2 * 2 ^ k) with (2 ^ (k + 1)) by (rewrite Z.pow_add_r by lia; lia).
    f_equal. f_equal. lia.
  - rewrite rounds_over by done. cbn [combine_rounds]. do 2 f_equal. lia.
Qed.

End Loop.

(** Beyond [2^30] threads the round with step [2^30] evaluates [2 * step],
    which does not fit an [int]. *)
Section Overflow.
Context {T : Type} {ops : FloatOps T}.
Variables m n : Z.
Hypothesis Hm : TWO_30 < m.

Lemma thread_args_first : ∃ ts, thread_args m n = mkThreadArgs 0 m n :: ts.
Proof using Hm.
  unfold thread_args, TWO_30 in *. rewrite seqZ_cons by lia.
  cbn [fmap list_fmap]. by eexists.
Qed.

Lemma round_overflow (sums : list T) :
  run_threads (reduce_round TWO_30) (thread_args m n) sums = Undefined.
Proof using Hm.
  destruct thread_args_first as [ts ->]. cbn [run_threads].
  unfold reduce_round; cbn [thread_id total_threads]. reflexivity.
Qed.

Lemma loop_overflow_from (d : nat) : ∀ k fuel rounds (sums : list T),
  0 ≤ k → k + Z.of_nat d = 30 →
  ¬ is_done (reduction_loop fuel m n (2 ^ k) rounds sums).
Proof using Hm.
  induction d as [|d IH]; intros k fuel rounds sums Hk Hd.
  - replace k with 30 by lia. change (2 ^ 30) with TWO_30.
    destruct fuel as [|fuel]; cbn [reduction_loop]; [ simpl; tauto | ].
    destruct (Z.ltb_spec TWO_30 m); [ | lia ].
    rewrite round_overflow. simpl. tauto.
  - destruct fuel as [|fuel]; cbn [reduction_loop]; [ simpl; tauto | ].
    assert (2 ^ k < TWO_30).
    { change TWO_30 with (2 ^ 30). apply Z.pow_lt_mono_r; lia. }
    destruct (Z.ltb_spec (2 ^ k) m); [ | lia ].
    destruct (run_threads _ _ _) as [s| |]; [ | simpl; tauto | simpl; tauto ].
    rewrite bind_Done. unfold int_mul. unfold TWO_30 in *.
    rewrite int_of_in by (unfold INT_MIN, INT_MAX; lia). rewrite bind_Done.
    replace (2 ^ k * 2) with (2 ^ (k + 1)) by (rewrite Z.pow_add_r by lia; lia).
    apply IH; lia.
Qed.

Lemma loop_overflow fuel rounds (sums : list T) :
  ¬ is_done (reduction_loop fuel m n 1 rounds sums).
Proof using Hm. apply (loop_overflow_from 30 0); lia. Qed.

End Overflow.

(** ** Block sums: the invariant of the reduction *)

Section Blocks.
Context {T : Type} {ops : FloatOps T}.
Hypothesis add_assoc : ∀ x y z : T, add (add x y) z = add x (add y z).

Lemma sum_slots_app (l1 l2 : list T) x y :
  sum_slots l1 = Some x → sum_slots l2 = Some y →
  sum_slots (l1 ++ l2) = Some (add x y).
Proof using add_assoc.
  destruct l1 as [|a r1]; [ discriminate | ].
  destruct l2 as [|b r2]; [ discriminate | ].
  cbn [sum_slots app]. intros [= <-] [= <-]. f_equal.
  rewrite foldl_app. cbn [foldl]. by apply foldl_add_shift.
Qed.

Lemma block_split (sums0 : list T) (j : nat) step :
  0 ≤ step →
  block sums0 (Z.of_nat j) (2 * step)
  = block sums0 (Z.of_nat j) step ++ block sums0 (Z.of_nat j + step) step.
Proof.
  intros Hs. unfold block.
  replace (Z.to_nat (2 * step)) with (Z.to_nat step + Z.to_nat step)%nat by lia.
  rewrite <- take_take_drop, drop_drop. do 3 f_equal. lia.
Qed.

Lemma block_clipped (sums0 : list T) (j : nat) step :
  0 ≤ step → Z.of_nat (length sums0) ≤ Z.of_nat j + step →
  block sums0 (Z.of_nat j) (2 * step) = block sums0 (Z.of_nat j) step.
Proof.
  intros Hs Hclip. unfold block.
  rewrite !take_ge; [ done | | ]; rewrite length_drop; lia.
Qed.

Lemma block_invariant_start (sums0 : list T) : block_invariant sums0 0 sums0.
Proof.
  split; [ done | ]. intros j Hj _. unfold block.
  destruct (lookup_lt_is_Some_2 sums0 j Hj) as [x Hx].
  rewrite Nat2Z.id. change (Z.to_nat (2 ^ 0)) with 1%nat.
  rewrite Hx. rewrite (drop_S _ _ _ Hx). done.
Qed.

Lemma multiple_of_half k j :
  0 ≤ k → j `mod` 2 ^ (k + 1) = 0 → j `mod` 2 ^ k = 0.
Proof.
  intros Hk Hj. assert (0 < 2 ^ k) by (apply Z.pow_pos_nonneg; lia).
  rewrite Z.pow_add_r in Hj by lia.
  apply Zmod_divides in Hj as [c ->]; [ | lia ].
  apply Zmod_divides; [ lia | ]. exists (2 * c). lia.
Qed.

Lemma block_invariant_round (sums0 sums : list T) k :
  0 ≤ k → block_invariant sums0 k sums →
  block_invariant sums0 (k + 1) (combine_round (2 ^ k) sums).
Proof using add_assoc.
  intros Hk [Hlen Hinv]. assert (0 < 2 ^ k) by (apply Z.pow_pos_nonneg; lia).
  assert (Hpow : 2 ^ (k + 1) = 2 * 2 ^ k) by (rewrite Z.pow_add_r by lia; lia).
  split; [ by rewrite combine_round_length | ].
  intros j Hj Hmod.
  pose proof (multiple_of_half k _ Hk Hmod) as Hhalf.
  destruct (lookup_lt_is_Some_2 sums j ltac:(lia)) as [x Hx].
  rewrite (combine_round_lookup _ _ _ x Hx).
  rewrite decide_True by (by rewrite <- Hpow).
  rewrite Hpow. pose proof (Hinv j Hj Hhalf) as Hxj. rewrite Hx in Hxj.
  destruct (sums !! (j + Z.to_nat (2 ^ k))%nat) as [y|] eqn:Hy.
  - pose proof (lookup_lt_Some _ _ _ Hy) as Hlt.
    rewrite block_split by lia. symmetry. apply sum_slots_app; [ done | ].
    rewrite <- Hy.
    replace (Z.of_nat j + 2 ^ k) with (Z.of_nat (j + Z.to_nat (2 ^ k))) by lia.
    symmetry. apply Hinv; [ lia | ].
    rewrite Nat2Z.inj_add, Z2Nat.id by lia.
    rewrite <- Zplus_mod_idemp_l, Hhalf, Z.add_0_l. apply Z_mod_same_full.
  - apply lookup_ge_None_1 in Hy.
    rewrite block_clipped by lia. done.
Qed.

Lemma block_invariant_rounds (sums0 : list T) r : ∀ k sums,
  0 ≤ k → block_invariant sums0 k sums →
  block_invariant sums0 (k + Z.of_nat r) (combine_rounds r (2 ^ k) sums).
Proof using add_assoc.
  induction r as [|r IH]; intros k sums Hk Hinv; cbn [combine_rounds].
  - by rewrite Z.add_0_r.
  - replace (2 * 2 ^ k) with (2 ^ (k + 1)) by (rewrite Z.pow_add_r by lia; lia).
    replace (k + Z.of_nat (S r)) with (k + 1 + Z.of_nat r) by lia.
    apply IH; [ lia | ]. by apply block_invariant_round.
Qed.

Lemma block_invariant_total (sums0 sums : list T) k :
  0 ≤ k → Z.of_nat (length sums0) ≤ 2 ^ k → sums0 ≠ [] →
  block_invariant sums0 k sums → sums !! 0%nat = sum_slots sums0.
Proof.
  intros Hk Hlen Hne [_ Hinv].
  rewrite (Hinv 0%nat).
  - unfold block. change (Z.to_nat (Z.of_nat 0)) with 0%nat.
    rewrite drop_0. by rewrite take_ge by lia.
  - destruct sums0; [ done | cbn; lia ].
  - apply Zmod_0_l.
Qed.

End Blocks.

(** ** The partial sums add up to the sequential sum *)

Section Total.
Context {T : Type} {ops : FloatOps T}.
Hypothesis add_assoc : ∀ x y z : T, add (add x y) z = add x (add y z).
Hypothesis add_zero_r : ∀ x : T, add x zero = x.
Variables m n : Z.
Hypothesis Hm : 1 ≤ m ≤ INT_MAX.
Hypothesis Hn : 1 ≤ n ≤ INT_MAX.

Lemma sum_range_app a l1 l2 :
  0 ≤ l1 → 0 ≤ l2 →
  add (sum_range a l1) (sum_range (a + l1) l2) = sum_range a (l1 + l2).
Proof using add_assoc add_zero_r.
  intros H1 H2. unfold sum_range.
  rewrite seqZ_app, fmap_app, foldl_app by done.
  symmetry. by apply foldl_add_start.
Qed.

Lemma partial_sums_prefix (k : nat) :
  Z.of_nat k < m →
  foldl add (partial_sum m n 0) (partial_sum m n <$> seqZ 1 (Z.of_nat k))
  = sum_range 1 (if Z.of_nat k =? m - 1 then n
                 else (Z.of_nat k + 1) * (n ÷ m)).
Proof using add_assoc add_zero_r Hm Hn.
  pose proof (chunk_bounds m n Hm Hn) as [Hq Hmq].
  induction k as [|k IH]; intros Hk.
  - change (Z.of_nat 0) with 0. rewrite seqZ_nil by lia.
    cbn [foldl fmap list_fmap]. unfold partial_sum. f_equal; lia.
  - rewrite Nat2Z.inj_succ, <- Z.add_1_r.
    rewrite seqZ_app by lia. rewrite fmap_app, foldl_app.
    rewrite IH by lia.
    destruct (Z.eqb_spec (Z.of_nat k) (m - 1)) as [|_]; [ lia | ].
    change (seqZ (1 + Z.of_nat k) 1) with [0 + (1 + Z.of_nat k)].
    cbn [fmap list_fmap foldl]. unfold partial_sum.
    replace (0 + (1 + Z.of_nat k)) with (Z.of_nat k + 1) by lia.
    set (e := if Z.of_nat k + 1 =? m - 1 then n
              else (Z.of_nat k + 1 + 1) * (n ÷ m)).
    assert ((Z.of_nat k + 1) * (n ÷ m) ≤ e).
    { unfold e. destruct (Z.eqb_spec (Z.of_nat k + 1) (m - 1)); nia. }
    replace ((Z.of_nat k + 1) * (n ÷ m) + 1)
      with (1 + (Z.of_nat k + 1) * (n ÷ m)) by lia.
    rewrite sum_range_app by nia. f_equal. lia.
Qed.

Lemma partial_sums_total :
  sum_slots (partial_sum m n <$> seqZ 0 m) = Some (reference_sum n).
Proof using add_assoc add_zero_r Hm Hn.
  rewrite seqZ_cons by lia. cbn [fmap list_fmap sum_slots]. f_equal.
  replace (Z.pred m) with (Z.of_nat (Z.to_nat (m - 1))) by lia.
  change (Z.succ 0) with 1. rewrite partial_sums_prefix by lia.
  rewrite Z2Nat.id by lia. by rewrite Z.eqb_refl.
Qed.

End Total.

(** ** The frame of a round *)

Lemma round_frame {T : Type} {ops : FloatOps T} step m (ts : list ThreadArgs) :
  1 ≤ step →
  (∀ a, a ∈ ts → 0 ≤ thread_id a ∧ total_threads a = m) →
  ∀ sums sums' : list T,
    run_threads (reduce_round step) ts sums = Done sums' →
    length sums' = length sums ∧
    ∀ j, 0 ≤ j → ¬ (j `mod` (2 * step) = 0 ∧ j + step < m) →
         sums' !! Z.to_nat j = sums !! Z.to_nat j.
Proof.
  intros Hs. induction ts as [|a ts IH]; intros Hts sums sums' Hrun.
  - injection Hrun as <-. by split.
  - cbn [run_threads] in Hrun. apply bind_is_Done in Hrun as (s1 & Ha & Hrun).
    destruct (Hts a ltac:(left)) as [Hta Hma].
    destruct a as [tid ma na]; cbn [thread_id total_threads] in *. subst ma.
    apply IH in Hrun as [Hlen Hrest]; [ | intros b Hb; apply Hts; by right ].
    apply reduce_round_inv in Ha
      as [(Hz & Hlt & x & y & Hx & Hy & Hb & ->)|[Hno ->]]; [ | done | done | done ].
    split; [ by rewrite Hlen, length_insert | ].
    intros j Hj Hfree. rewrite Hrest by done.
    apply list_lookup_insert_ne. intros Heq.
    apply Hfree. replace j with tid by lia. done.
Qed.

(** ** [main] *)

Lemma create_threads_all {T : Type} (sys : system T) ids :
  (∀ i, pthread_create sys i = true) →
  create_threads sys ids = ((λ i, Acquire (RThread i)) <$> ids, None).
Proof.
  intros Hok. induction ids as [|i ids IH]; [ done | ].
  cbn [create_threads]. by rewrite Hok, IH.
Qed.

Lemma main_success {T : Type} {ops : FloatOps T} (sys : system T) fuel m n v :
  1 ≤ m → 1 ≤ n →
  malloc_partial_sums sys = true → malloc_threads sys = true →
  malloc_thread_args sys = true → (∀ i, pthread_create sys i = true) →
  compute_quadruple_roots fuel m n (fresh_memory sys) = Done v →
  ∃ r, main sys fuel m n = Done r
       ∧ exit_code r = 0 ∧ total r = Some v
       ∧ ∀ res, ¬ leaked (trace r) res.
Proof.
  intros Hm Hn H1 H2 H3 H4 Hv. unfold main.
  destruct (Z.leb_spec m 0); [ lia | ]. destruct (Z.leb_spec n 0); [ lia | ].
  cbn [orb]. rewrite H1, H2, H3. cbn [negb orb].
  rewrite create_threads_all by done. rewrite Hv, bind_Done.
  eexists. split; [ done | ]. cbn [exit_code total trace].
  split; [ done | split; [ done | ] ].
  intros r [Hacq Hrel]. apply Hrel. clear Hrel.
  cbn [app] in *.
  repeat (rewrite elem_of_app in Hacq || rewrite elem_of_cons in Hacq).
  repeat (rewrite elem_of_app || rewrite elem_of_cons).
  rewrite !list_elem_of_fmap in *.
  destruct Hacq as [[= ->]|[[= ->]|[[= ->]|[[= ->]|Hacq]]]]; [ tauto .. | ].
  destruct Hacq as [(i & [= ->] & Hi)|Hacq].
  - do 5 right. left. by exists i.
  - destruct Hacq as [(i & Heq & _)|[Heq|[Heq|[Heq|[Heq|Hnil]]]]];
      try discriminate. by apply elem_of_nil in Hnil.
Qed.

Lemma create_threads_events {T : Type} (sys : system T) ids e :
  e ∈ (create_threads sys ids).1 → ∃ i, e = Acquire (RThread i).
Proof.
  induction ids as [|i ids IH]; cbn [create_threads].
  - by intros ?%elem_of_nil.
  - destruct (pthread_create sys i); [ | by intros ?%elem_of_nil ].
    destruct (create_threads sys ids) as [evs failed]. cbn [fst] in *.
    intros [->|He]%elem_of_cons; [ by exists i | by apply IH ].
Qed.

(** On every path of [main] that ends with an error, no thread is joined
    and the barrier is not destroyed. *)
Lemma main_error_path {T : Type} {ops : FloatOps T} (sys : system T) fuel m n r e :
  main sys fuel m n = Done r →
  exit_code r = 1 →
  e ∈ trace r →
  e ≠ Release RBarrier ∧ ∀ i, e ≠ Release (RThread i).
Proof.
  unfold main.
  destruct ((m <=? 0) || (n <=? 0)).
  { intros [= <-] _ [->|Hnil]%elem_of_cons; [ done | by apply elem_of_nil in Hnil ]. }
  destruct (malloc_partial_sums sys); cbn [negb].
  2:{ intros [= <-] _ [->|Hnil]%elem_of_cons;
        [ done | by apply elem_of_nil in Hnil ]. }
  destruct (malloc_threads sys), (malloc_thread_args sys); cbn [negb orb].
  2-4: intros [= <-] _ He; cbn [trace app] in He;
       repeat (apply elem_of_cons in He as [->|He]; [ done | ]);
       by apply elem_of_nil in He.
  destruct (create_threads sys (seqZ 0 m)) as [created [i|]] eqn:Hc.
  2:{ destruct (compute_quadruple_roots fuel m n (fresh_memory sys)) as [v| |];
        [ | discriminate | discriminate ].
      rewrite bind_Done. intros [= <-]. discriminate. }
  intros [= <-] _ He. cbn [trace app] in He.
  repeat (apply elem_of_cons in He as [->|He]; [ done | ]).
  apply elem_of_app in He as [He|He].
  - pose proof (create_threads_events sys (seqZ 0 m) e) as Hev.
    rewrite Hc in Hev. destruct (Hev He) as [j ->]. done.
  - repeat (apply elem_of_cons in He as [->|He]; [ done | ]).
    by apply elem_of_nil in He.
Qed.

(** * The claims *)

(** [C3] For [worker_id] in [[0, m)], [m >= 1], [n >= 1] (both C ints), the
    range of the worker is [start = worker_id * (n / m) + 1] and
    [end = (worker_id + 1) * (n / m)] with integer division, except that
    the last worker ends at [n]; the ranges of two different workers share
    no integer, and an integer lies in some range exactly when it lies in
    [[1, n]]: each integer of [[1, n]] is covered exactly once. *)
Theorem C3_partition (m n : Z) :
  1 ≤ m ≤ INT_MAX → 1 ≤ n ≤ INT_MAX →
  (∀ tid, 0 ≤ tid < m →
     thread_range (mkThreadArgs tid m n)
     = Done (tid * (n ÷ m) + 1,
             if tid =? m - 1 then n else (tid + 1) * (n ÷ m)))
  ∧ (∀ tid tid' i, 0 ≤ tid < m → 0 ≤ tid' < m →
       assigned tid m n i → assigned tid' m n i → tid = tid')
  ∧ (∀ i, 1 ≤ i ≤ n ↔ ∃ tid, 0 ≤ tid < m ∧ assigned tid m n i).
Proof.
  intros Hm Hn. split; [ | split ].
  - intros tid Ht. by apply thread_range_eq.
  - intros tid tid' i. by apply assigned_unique.
  - intros i. split.
    + by apply assigned_exists.
    + intros (tid & Ht & Ha). by apply (assigned_inside m n Hm Hn tid).
Qed.

Lemma C3_partition_witness :
  (1 ≤ 4 ≤ INT_MAX ∧ 1 ≤ 100 ≤ INT_MAX)
  ∧ thread_range (mkThreadArgs 0 4 100) = Done (1, 25)
  ∧ thread_range (mkThreadArgs 3 4 100) = Done (76, 100).
Proof.
  assert (Hm : 1 ≤ 4 ≤ INT_MAX) by (unfold INT_MAX; lia).
  assert (Hn : 1 ≤ 100 ≤ INT_MAX) by (unfold INT_MAX; lia).
  split; [ by split | ].
  destruct (C3_partition 4 100 Hm Hn) as (Hrange & _ & _).
  split.
  - apply (Hrange 0). lia.
  - apply (Hrange 3). lia.
Defined.

(** [C5] [main] checks its two numbers before anything else: when the
    thread count or the upper bound is not positive it prints the
    message for invalid arguments and returns 1, having allocated no
    array, initialised no barrier and created no thread, and without any
    computation. *)
Theorem C5_invalid_arguments {T : Type} {ops : FloatOps T} (sys : system T) fuel m n :
  m ≤ 0 ∨ n ≤ 0 →
  main sys fuel m n = Done (mkRun 1 [Stderr MsgNotPositive] None).
Proof.
  intros Hbad. unfold main.
  destruct (Z.leb_spec m 0), (Z.leb_spec n 0); cbn [orb]; done || lia.
Qed.

Lemma C5_invalid_arguments_witness :
  (0 ≤ 0 ∨ 10 ≤ 0)
  ∧ main (ops := term_ops) (mkSystem _ true true true (λ _, true) []) 5 0 10
    = Done (mkRun 1 [Stderr MsgNotPositive] None).
Proof.
  split; [ left; lia | ].
  apply (C5_invalid_arguments (ops := term_ops)). left. lia.
Defined.

(** [C4] evaluated where the second of two thread creations fails, and
    where the allocation of [threads] fails: [main] frees the arrays and
    returns 1, but thread 0 is never joined and the barrier is never
    destroyed, so [partial_sums] is freed while thread 0 can still use
    it; after the failed allocation, [thread_args] and the barrier
    remain. *)
Theorem C4_failure_paths_keep_resources :
  let create_fails := mkSystem (list Z) true true true (λ i, negb (i =? 1)) [[]; []] in
  let malloc_fails := mkSystem (list Z) true false true (λ _, true) [[]; []] in
  main (ops := term_ops) create_fails 20 2 10
  = Done (mkRun 1 [Acquire RPartialSums; Acquire RBarrier; Acquire RThreads;
                   Acquire RThreadArgs; Acquire (RThread 0); Stderr (MsgCreate 1);
                   Release RPartialSums; Release RThreads; Release RThreadArgs]
            None)
  ∧ (r ← main (ops := term_ops) create_fails 20 2 10; Done (live_after (trace r)))
    = Done [RBarrier; RThread 0]
  ∧ main (ops := term_ops) malloc_fails 20 2 10
    = Done (mkRun 1 [Acquire RPartialSums; Acquire RBarrier; Acquire RThreadArgs;
                     Stderr MsgAllocation; Release RPartialSums] None)
  ∧ (r ← main (ops := term_ops) malloc_fails 20 2 10; Done (live_after (trace r)))
    = Done [RBarrier; RThreadArgs].
Proof. repeat split; vm_compute; reflexivity. Qed.

(** [C7] In a round with step [s >= 1] the slots touched by two different
    threads are disjoint. A thread touches slots only when it is active
    with a partner ([tid mod 2s = 0] and [tid + s < m]); it then writes
    its own slot [tid] and reads [tid] and [tid + s], and these are the
    slots it touches when [2 * s] and [tid + s] fit an [int]. So no slot
    is the write target of two threads, and no thread reads a slot
    another thread writes in the same round. *)
Theorem C7_round_accesses_disjoint step m n tid1 tid2 :
  1 ≤ step → 0 ≤ tid1 → 0 ≤ tid2 → tid1 ≠ tid2 →
  (∀ slot, slot ∈ round_accesses step (mkThreadArgs tid1 m n) →
           tid1 `mod` (2 * step) = 0 ∧ tid1 + step < m
           ∧ (slot = tid1 ∨ slot = tid1 + step))
  ∧ (2 * step ≤ INT_MAX → tid1 + step ≤ INT_MAX →
     tid1 `mod` (2 * step) = 0 → tid1 + step < m →
     round_writes step (mkThreadArgs tid1 m n) = [tid1]
     ∧ round_reads step (mkThreadArgs tid1 m n) = [tid1; tid1 + step])
  ∧ (∀ slot, slot ∈ round_accesses step (mkThreadArgs tid1 m n) →
             slot ∉ round_accesses step (mkThreadArgs tid2 m n)).
Proof.
  intros Hs H1 H2 Hne. split; [ | split ].
  - intros slot. by apply round_accesses_elem.
  - intros Hs2 Hts Hz Hlt. unfold round_writes, round_reads.
    rewrite round_partner_active by done.
    rewrite decide_True by done. done.
  - intros slot Ha1 Ha2.
    apply round_accesses_elem in Ha1 as (Hz1 & _ & Hslot1); [ | done | done ].
    apply round_accesses_elem in Ha2 as (Hz2 & _ & Hslot2); [ | done | done ].
    pose proof (partner_not_active step tid1 Hs H1 Hz1).
    pose proof (partner_not_active step tid2 Hs H2 Hz2).
    destruct Hslot1 as [->| ->], Hslot2 as [Heq|Heq]; try lia.
    + rewrite Heq in Hz1. lia.
    + rewrite <- Heq in Hz2. lia.
Qed.

Lemma C7_round_accesses_disjoint_witness :
  (1 ≤ 2 ∧ 0 ≤ 0 ∧ 0 ≤ 4 ∧ 0 ≠ 4)
  ∧ round_accesses 2 (mkThreadArgs 0 7 7) = [0; 2; 0]
  ∧ round_accesses 2 (mkThreadArgs 4 7 7) = [4; 6; 4]
  ∧ 2 ∉ round_accesses 2 (mkThreadArgs 4 7 7).
Proof.
  split; [ repeat split; lia | ].
  split; [ reflexivity | split; [ reflexivity | ] ].
  destruct (C7_round_accesses_disjoint 2 7 7 0 4) as (_ & _ & Hdisj);
    [ lia | lia | lia | lia | ].
  apply Hdisj. vm_compute. apply list_elem_of_In. right. left. reflexivity.
Defined.

(** [C10] Frame of a round. When the round with step [s] of the [m]
    threads, run in any order, completes, the array keeps its length and
    every slot [j] for which [j mod 2s = 0] and [j + s < m] do not both
    hold has the value it had before the round: only the slots of active
    threads with a partner can change. *)
Theorem C10_round_frame {T : Type} {ops : FloatOps T} step m n ts (sums sums' : list T) :
  1 ≤ step → ts ≡ₚ thread_args m n →
  run_threads (reduce_round step) ts sums = Done sums' →
  length sums' = length sums ∧
  ∀ j, 0 ≤ j → ¬ (j `mod` (2 * step) = 0 ∧ j + step < m) →
       sums' !! Z.to_nat j = sums !! Z.to_nat j.
Proof.
  intros Hs Hperm Hrun.
  apply (round_frame step m ts); [ done | | done ].
  intros a Ha. rewrite Hperm in Ha.
  apply elem_of_thread_args in Ha as (tid & -> & Ht). cbn. lia.
Qed.

Lemma C10_round_frame_witness :
  (1 ≤ 1 ∧ thread_args 3 3 ≡ₚ thread_args 3 3
   ∧ run_threads (reduce_round (ops := term_ops) 1) (thread_args 3 3)
       [[1]; [2]; [3]] = Done [[1; 2]; [2]; [3]])
  ∧ [[1; 2]; [2]; [3]] !! Z.to_nat 2 = [[1]; [2]; [3]] !! Z.to_nat 2.
Proof.
  assert (Hrun : run_threads (reduce_round (ops := term_ops) 1) (thread_args 3 3)
                   [[1]; [2]; [3]] = Done [[1; 2]; [2]; [3]]) by reflexivity.
  split; [ repeat split; done || lia | ].
  destruct (C10_round_frame (ops := term_ops) 1 3 3 (thread_args 3 3) _ _
              ltac:(lia) ltac:(reflexivity) Hrun) as [_ Hframe].
  apply Hframe; [ lia | ]. intros [_ Hlt]. lia.
Defined.

(** ** A single thread *)

Lemma single_thread_args n : thread_args 1 n = [mkThreadArgs 0 1 n].
Proof. reflexivity. Qed.

(** With one thread and an upper bound below [INT_MAX], the thread gets
    the range [[1, n]], the reduction loop runs no round, and the value
    printed is the sum of the sequential loop. No law of the addition is
    needed. *)
Lemma single_thread_in_range {T : Type} {ops : FloatOps T} fuel n (init : list T) :
  1 ≤ n < INT_MAX → length init = 1%nat → (Z.to_nat n < fuel)%nat →
  thread_range (mkThreadArgs 0 1 n) = Done (1, n)
  ∧ (∀ s : list T, reduction_loop fuel 1 n 1 0 s = Done (s, 0%nat))
  ∧ compute_quadruple_roots fuel 1 n init = Done (reference_sum n).
Proof.
  intros Hn Hlen Hfuel.
  assert (Hq : n ÷ 1 = n) by apply Z.quot_1_r.
  assert (Hloop : ∀ s : list T, reduction_loop fuel 1 n 1 0 s = Done (s, 0%nat)).
  { intros s. destruct fuel as [|fuel]; [ lia | done ]. }
  split; [ | split; [ done | ] ].
  - rewrite (thread_range_eq 1 n) by (unfold INT_MAX in *; lia).
    by rewrite Hq.
  - unfold compute_quadruple_roots. rewrite single_thread_args. cbn [run_threads].
    rewrite (phase1_thread 1 n) by (done || unfold INT_MAX in *; lia).
    rewrite !bind_Done, Hloop, bind_Done.
    destruct init as [|x [|y init]]; try discriminate.
    replace (partial_sum 1 n 0) with (reference_sum n); [ reflexivity | ].
    unfold reference_sum, partial_sum. rewrite Hq.
    change (0 =? 1 - 1) with true. cbv iota. f_equal; lia.
Qed.

(** [C9] evaluated at one thread and [n = INT_MAX = 2147483647]: the
    thread gets the range [[1, INT_MAX]] and no reduction round would
    run, but the loop [for (i = start; i <= end; i++)] cannot leave with
    [end = INT_MAX]: the test always holds and [i++] overflows at
    [INT_MAX]. Phase 1 never completes, so no sum is produced, whatever
    the fuel. *)
Theorem C9_single_thread_int_max {T : Type} {ops : FloatOps T} fuel (init : list T) :
  thread_range (mkThreadArgs 0 1 INT_MAX) = Done (1, INT_MAX)
  ∧ ¬ is_done (phase1 fuel (mkThreadArgs 0 1 INT_MAX) init)
  ∧ ¬ is_done (compute_quadruple_roots fuel 1 INT_MAX init).
Proof.
  assert (Hrange : thread_range (mkThreadArgs 0 1 INT_MAX) = Done (1, INT_MAX))
    by reflexivity.
  assert (Hphase : ∀ s : list T, ¬ is_done (phase1 fuel (mkThreadArgs 0 1 INT_MAX) s)).
  { intros s. unfold phase1. rewrite Hrange, bind_Done.
    apply bind_not_Done. apply sum_loop_int_max. unfold INT_MAX. lia. }
  split; [ done | split; [ done | ] ].
  unfold compute_quadruple_roots. rewrite single_thread_args. cbn [run_threads].
  apply bind_not_Done. apply bind_not_Done. apply Hphase.
Qed.

(** ** Claims on the reduction loop *)

(** [C8], for thread counts up to [2^30]: the reduction loop, started
    with step 1 on an array of [m] slots, completes after exactly
    [ceil(log2 m)] rounds (none when [m = 1]); every step of a round it
    ran was below [m], and the step it stops at, [2^ceil(log2 m)], is at
    least [m]. *)
Theorem C8_reduction_rounds {T : Type} {ops : FloatOps T} fuel m n (sums : list T) :
  1 ≤ m ≤ TWO_30 → length sums = Z.to_nat m →
  (Z.to_nat (Z.log2_up m) < fuel)%nat →
  reduction_loop fuel m n 1 0 sums
  = Done (combine_rounds (Z.to_nat (Z.log2_up m)) 1 sums, Z.to_nat (Z.log2_up m))
  ∧ (∀ k, 0 ≤ k < Z.log2_up m → 2 ^ k < m)
  ∧ m ≤ 2 ^ Z.log2_up m
  ∧ (m = 1 → Z.log2_up m = 0).
Proof.
  intros Hm Hlen Hfuel. split; [ | split; [ | split ] ].
  - pose proof (reduction_loop_from m n Hm fuel 0 0%nat sums) as Hloop.
    rewrite Z.sub_0_r in Hloop. apply Hloop; done || lia.
  - intros k Hk. apply Z.log2_up_lt_pow2; lia.
  - apply Z.log2_up_le_pow2; lia.
  - by intros ->.
Qed.

Lemma C8_reduction_rounds_witness :
  (1 ≤ 5 ≤ TWO_30 ∧ length [[1]; [2]; [3]; [4]; [5]] = Z.to_nat 5
   ∧ (Z.to_nat (Z.log2_up 5) < 4)%nat)
  ∧ reduction_loop (ops := term_ops) 4 5 5 1 0 [[1]; [2]; [3]; [4]; [5]]
    = Done ([[1; 2; 3; 4; 5]; [2]; [3; 4]; [4]; [5]], 3%nat).
Proof.
  assert (Hm : 1 ≤ 5 ≤ TWO_30) by (unfold TWO_30; lia).
  assert (Hfuel : (Z.to_nat (Z.log2_up 5) < 4)%nat) by (vm_compute; lia).
  split; [ by repeat split | ].
  destruct (C8_reduction_rounds (ops := term_ops) 4 5 5 [[1]; [2]; [3]; [4]; [5]]
              Hm eq_refl Hfuel) as [Hloop _].
  exact Hloop.
Defined.

(** At [2^30 + 1] threads the round with step [2^30] is reached and
    evaluates [2 * step], which overflows: the loop never completes. *)
Lemma C8_counterexample :
  ¬ ∃ (fuel : nat) (sums : list (list Z)) r,
      reduction_loop (ops := term_ops) fuel 1073741825 1 1 0 sums = Done r.
Proof.
  intros (fuel & sums & r & Hrun).
  apply (loop_overflow (ops := term_ops) 1073741825 1
           ltac:(unfold TWO_30; lia) fuel 0%nat sums).
  by rewrite Hrun.
Qed.

Lemma reduction_total {T : Type} {ops : FloatOps T}
    (add_assoc : ∀ x y z : T, add (add x y) z = add x (add y z))
    m n (sums0 : list T) fuel :
  1 ≤ m ≤ TWO_30 → length sums0 = Z.to_nat m →
  (Z.to_nat (Z.log2_up m) < fuel)%nat →
  ∃ final rounds,
    reduction_loop fuel m n 1 0 sums0 = Done (final, rounds)
    ∧ final !! 0%nat = sum_slots sums0.
Proof.
  intros Hm Hlen Hfuel.
  pose proof (reduction_loop_from m n Hm fuel 0 0%nat sums0) as Hloop.
  rewrite Z.sub_0_r in Hloop. change (2 ^ 0) with 1 in Hloop.
  rewrite Hloop by (done || lia).
  eexists _, _. split; [ done | ].
  pose proof (block_invariant_rounds add_assoc sums0
                (Z.to_nat (Z.log2_up m)) 0 sums0 ltac:(lia)
                (block_invariant_start sums0)) as Hinv.
  change (2 ^ 0) with 1 in Hinv.
  pose proof (Z.log2_up_nonneg m) as Hlog.
  rewrite Z.add_0_l, Z2Nat.id in Hinv by done.
  apply block_invariant_total in Hinv; [ done | done | | ].
  - rewrite Hlen, Z2Nat.id by lia. apply Z.log2_up_le_pow2; lia.
  - intros ->. cbn in Hlen. lia.
Qed.

(** [C2], for thread counts up to [2^30] and an associative addition. Let
    [sums0] be the array of [m] slots that phase 1 left.
    - At the start of round [k], that is after [k] rounds with the steps
      [1, 2, .., 2^(k-1)], every slot [j] that is a multiple of [2^k]
      holds the sum of the slots [j .. j + 2^k - 1] of [sums0], clipped
      to [m].
    - If an array has this property for [k] and [2^k < m], then the round
      with step [2^k] of the [m] threads, run in any order, completes and
      the array it leaves has the property for [k + 1]: blocks of
      [2^(k+1)] slots.
    - The loop completes after these rounds, and then slot 0 holds the
      sum of all [m] slots of [sums0], each counted once, whether or not
      [m] is a power of two. *)
Theorem C2_block_invariant {T : Type} {ops : FloatOps T} m n (sums0 : list T) :
  (∀ x y z : T, add (add x y) z = add x (add y z)) →
  1 ≤ m ≤ TWO_30 → length sums0 = Z.to_nat m →
  (∀ k, 0 ≤ k →
     block_invariant sums0 k (combine_rounds (Z.to_nat k) 1 sums0))
  ∧ (∀ k sums ts, 0 ≤ k → 2 ^ k < m → block_invariant sums0 k sums →
       ts ≡ₚ thread_args m n →
       run_threads (reduce_round (2 ^ k)) ts sums
       = Done (combine_round (2 ^ k) sums)
       ∧ block_invariant sums0 (k + 1) (combine_round (2 ^ k) sums))
  ∧ (∀ fuel, (Z.to_nat (Z.log2_up m) < fuel)%nat →
       ∃ final rounds,
         reduction_loop fuel m n 1 0 sums0 = Done (final, rounds)
         ∧ final = combine_rounds (Z.to_nat (Z.log2_up m)) 1 sums0
         ∧ final !! 0%nat = sum_slots sums0).
Proof.
  intros add_assoc Hm Hlen. split; [ | split ].
  - intros k Hk.
    pose proof (block_invariant_rounds add_assoc sums0 (Z.to_nat k) 0 sums0
                  ltac:(lia) (block_invariant_start sums0)) as Hinv.
    by rewrite Z.add_0_l, Z2Nat.id in Hinv by done.
  - intros k sums ts Hk Hlt Hinv Hperm. split.
    + assert (0 < 2 ^ k) by (apply Z.pow_pos_nonneg; lia).
      apply (round_all (2 ^ k) m n); [ lia | done | lia | | done ].
      destruct Hinv as [-> _]. done.
    + by apply block_invariant_round.
  - intros fuel Hfuel.
    destruct (reduction_total add_assoc m n sums0 fuel Hm Hlen Hfuel)
      as (final & rounds & Hloop & Hfinal).
    exists final, rounds. split; [ done | split; [ | done ] ].
    pose proof (reduction_loop_from m n Hm fuel 0 0%nat sums0) as Hloop'.
    rewrite Z.sub_0_r in Hloop'. change (2 ^ 0) with 1 in Hloop'.
    rewrite Hloop' in Hloop by (done || lia). by injection Hloop as <- _.
Qed.

Lemma C2_block_invariant_witness :
  ((∀ x y z : list Z, (x ++ y) ++ z = x ++ (y ++ z))
   ∧ 1 ≤ 5 ≤ TWO_30 ∧ length [[1]; [2]; [3]; [4]; [5]] = Z.to_nat 5)
  ∧ ∃ final rounds,
      reduction_loop (ops := term_ops) 4 5 5 1 0 [[1]; [2]; [3]; [4]; [5]]
      = Done (final, rounds)
      ∧ final !! 0%nat = Some [1; 2; 3; 4; 5].
Proof.
  assert (Hassoc : ∀ x y z : list Z, (x ++ y) ++ z = x ++ (y ++ z)).
  { intros x y z. symmetry. apply app_assoc. }
  assert (Hm : 1 ≤ 5 ≤ TWO_30) by (unfold TWO_30; lia).
  split; [ by repeat split | ].
  destruct (C2_block_invariant (ops := term_ops) 5 5 [[1]; [2]; [3]; [4]; [5]]
              Hassoc Hm eq_refl) as (_ & _ & Hloop).
  destruct (Hloop 4%nat ltac:(vm_compute; lia))
    as (final & rounds & Hrun & _ & Hfinal).
  by exists final, rounds.
Defined.

(** At [2^30 + 1] threads the round with step [2^30] is run
    ([2^30 < m]) and does not complete: every thread evaluates
    [2 * step], which overflows. *)
Lemma C2_counterexample :
  2 ^ 30 < 1073741825
  ∧ ¬ ∃ (sums sums' : list (list Z)),
        run_threads (reduce_round (ops := term_ops) (2 ^ 30))
          (thread_args 1073741825 1) sums = Done sums'.
Proof.
  split; [ lia | ]. intros (sums & sums' & Hrun). change (2 ^ 30) with TWO_30 in Hrun.
  rewrite (round_overflow (ops := term_ops) 1073741825 1
             ltac:(unfold TWO_30; lia)) in Hrun.
  discriminate.
Qed.

(** ** The whole computation *)

Lemma compute_quadruple_roots_eq {T : Type} {ops : FloatOps T}
    fuel m n (init : list T) :
  compute_quadruple_roots fuel m n init
  = (s1 ← run_threads (phase1 fuel) (thread_args m n) init;
     '(s2, _) ← reduction_loop fuel m n 1 0 s1;
     load s2 0).
Proof. reflexivity. Qed.

(** Without any law of the addition: the threads complete and print
    slot 0 of the array that [ceil(log2 m)] rounds make of the partial
    sums of phase 1. *)
Lemma compute_quadruple_roots_done {T : Type} {ops : FloatOps T}
    fuel m n (init : list T) :
  1 ≤ m ≤ TWO_30 → 1 ≤ n < INT_MAX → length init = Z.to_nat m →
  (Z.to_nat n < fuel)%nat → (Z.to_nat (Z.log2_up m) < fuel)%nat →
  ∃ v,
    combine_rounds (Z.to_nat (Z.log2_up m)) 1 (partial_sum m n <$> seqZ 0 m)
      !! 0%nat = Some v
    ∧ compute_quadruple_roots fuel m n init = Done v.
Proof.
  intros Hm Hn Hlen Hfn Hfm.
  assert (Hm' : 1 ≤ m ≤ INT_MAX) by (unfold TWO_30, INT_MAX in *; lia).
  set (sums0 := partial_sum m n <$> seqZ 0 m).
  assert (Hlen0 : length sums0 = Z.to_nat m).
  { unfold sums0. by rewrite length_fmap, length_seqZ. }
  destruct (lookup_lt_is_Some_2
              (combine_rounds (Z.to_nat (Z.log2_up m)) 1 sums0) 0%nat) as [v Hv].
  { rewrite combine_rounds_length. lia. }
  exists v. split; [ done | ].
  rewrite compute_quadruple_roots_eq.
  rewrite (phase1_all m n Hm' Hn fuel init (thread_args m n)) by done.
  rewrite bind_Done. fold sums0.
  pose proof (reduction_loop_from m n Hm fuel 0 0%nat sums0) as Hloop.
  rewrite Z.sub_0_r in Hloop. change (2 ^ 0) with 1 in Hloop.
  rewrite Hloop by (done || lia). rewrite bind_Done.
  by apply load_Done.
Qed.

(** [C6], for thread counts up to [2^30]. With fewer numbers than
    threads ([1 <= n < m <= 2^30]) the computation completes with defined
    behaviour only, so without overflow and without an access outside
    [partial_sums]: a thread that is not the last gets the empty range
    [[1, 0]] ([start > end]), its loop body never runs and it stores
    [0.0] in its slot, whatever the slot held; the last thread gets
    [[1, n]] and stores the whole sum; phase 1 of all threads together
    completes, and so does the whole run of the [m] threads, reduction
    included. *)
Theorem C6_fewer_numbers_than_threads {T : Type} {ops : FloatOps T}
    fuel m n tid (s : list T) :
  1 ≤ n → n < m → m ≤ TWO_30 → 0 ≤ tid < m →
  length s = Z.to_nat m →
  (Z.to_nat n < fuel)%nat → (Z.to_nat (Z.log2_up m) < fuel)%nat →
  (tid < m - 1 →
     thread_range (mkThreadArgs tid m n) = Done (1, 0)
     ∧ phase1 fuel (mkThreadArgs tid m n) s = Done (<[Z.to_nat tid := zero]> s))
  ∧ (tid = m - 1 →
     thread_range (mkThreadArgs tid m n) = Done (1, n)
     ∧ phase1 fuel (mkThreadArgs tid m n) s
       = Done (<[Z.to_nat tid := reference_sum n]> s))
  ∧ is_done (run_threads (phase1 fuel) (thread_args m n) s)
  ∧ is_done (compute_quadruple_roots fuel m n s).
Proof.
  intros Hn Hnm Hm30 Ht Hlen Hfuel Hfm.
  assert (Hm : m ≤ INT_MAX) by (unfold TWO_30, INT_MAX in *; lia).
  assert (Hq : n ÷ m = 0) by (apply Z.quot_small; lia).
  assert (Hmax : n < INT_MAX) by lia.
  pose proof (thread_range_eq m n ltac:(lia) ltac:(lia) tid Ht) as Hrange.
  pose proof (phase1_thread m n ltac:(lia) ltac:(lia) fuel tid s Ht Hlen Hfuel)
    as Hrun.
  unfold partial_sum in Hrun. rewrite Hq in Hrange, Hrun.
  split; [ | split; [ | split ] ].
  - intros Hlast. destruct (Z.eqb_spec tid (m - 1)); [ lia | ].
    rewrite Hrange, Hrun. split; [ f_equal; f_equal; lia | ].
    replace ((tid + 1) * 0 - (tid * 0 + 1) + 1) with 0 by lia.
    by rewrite Z.mul_0_r.
  - intros ->. rewrite Z.eqb_refl in Hrange, Hrun.
    rewrite Hrange, Hrun. split; [ f_equal; f_equal; lia | ].
    unfold reference_sum. do 2 f_equal. f_equal; lia.
  - rewrite (phase1_all m n) by (done || lia). exact I.
  - destruct (compute_quadruple_roots_done fuel m n s) as (v & _ & ->);
      done || lia.
Qed.

Lemma C6_fewer_numbers_than_threads_witness :
  (1 ≤ 3 ∧ 3 < 5 ∧ 5 ≤ TWO_30 ∧ 0 ≤ 1 < 5
   ∧ length [[7]; [7]; [7]; [7]; [7] : list Z] = Z.to_nat 5
   ∧ (Z.to_nat 3 < 4)%nat ∧ (Z.to_nat (Z.log2_up 5) < 4)%nat)
  ∧ thread_range (mkThreadArgs 1 5 3) = Done (1, 0)
  ∧ phase1 (ops := term_ops) 4 (mkThreadArgs 1 5 3) [[7]; [7]; [7]; [7]; [7]]
    = Done [[7]; []; [7]; [7]; [7]]
  ∧ is_done (compute_quadruple_roots (ops := term_ops) 4 5 3
               [[7]; [7]; [7]; [7]; [7]]).
Proof.
  assert (Hm : 5 ≤ TWO_30) by (unfold TWO_30; lia).
  assert (Hfuel : (Z.to_nat 3 < 4)%nat) by (vm_compute; lia).
  assert (Hfm : (Z.to_nat (Z.log2_up 5) < 4)%nat) by (vm_compute; lia).
  split; [ repeat split; done || lia | ].
  destruct (C6_fewer_numbers_than_threads (ops := term_ops) 4 5 3 1
              [[7]; [7]; [7]; [7]; [7]] ltac:(lia) ltac:(lia) Hm ltac:(lia)
              eq_refl Hfuel Hfm) as (Hmid & _ & _ & Hall).
  destruct (Hmid ltac:(lia)) as [Hrange Hstore].
  split; [ exact Hrange | split; [ exact Hstore | exact Hall ] ].
Defined.

(** With [n = 1] number and [m = 2^30 + 1] threads ([1 <= n < m], and
    [m] is an [int]) the threads never complete: the reduction reaches
    the round with step [2^30], where [2 * step] overflows. *)
Lemma C6_counterexample :
  1 ≤ 1 ∧ 1 < 1073741825 ∧ 1073741825 ≤ INT_MAX
  ∧ ∀ (fuel : nat) (s : list (list Z)),
      ¬ is_done (compute_quadruple_roots (ops := term_ops) fuel 1073741825 1 s).
Proof.
  split; [ lia | split; [ lia | split; [ unfold INT_MAX; lia | ] ] ].
  intros fuel s. rewrite compute_quadruple_roots_eq.
  destruct (run_threads _ _ s) as [s1| |]; [ | simpl; tauto | simpl; tauto ].
  rewrite bind_Done. apply bind_not_Done.
  apply (loop_overflow (ops := term_ops) 1073741825 1
           ltac:(unfold TWO_30; lia) fuel 0%nat s1).
Qed.

(** [C1], for thread counts up to [2^30] and upper bounds below
    [INT_MAX]. At the end of phase 1 slot [tid] holds the sum over the
    range of thread [tid]; the threads complete and print a value [v],
    which [main] reports with exit code 0 when every allocation and
    thread creation succeeds. When the addition is associative with
    [0.0] as right identity, the slots of phase 1 add up to the
    sequential sum of [i^0.25] over [[1, n]] and [v], the content of slot
    0 at the end of phase 2, is that sum. Rounding is not modelled: it is
    what the tolerance of the claim is for. *)
Theorem C1_total {T : Type} {ops : FloatOps T} fuel m n (init : list T) :
  1 ≤ m ≤ TWO_30 → 1 ≤ n < INT_MAX → length init = Z.to_nat m →
  (Z.to_nat n < fuel)%nat → (Z.to_nat (Z.log2_up m) < fuel)%nat →
  ∃ v,
    run_threads (phase1 fuel) (thread_args m n) init
    = Done (partial_sum m n <$> seqZ 0 m)
    ∧ compute_quadruple_roots fuel m n init = Done v
    ∧ (∀ sys : system T,
         fresh_memory sys = init →
         malloc_partial_sums sys = true → malloc_threads sys = true →
         malloc_thread_args sys = true → (∀ i, pthread_create sys i = true) →
         ∃ r, main sys fuel m n = Done r
              ∧ exit_code r = 0 ∧ total r = Some v)
    ∧ ((∀ x y z : T, add (add x y) z = add x (add y z)) →
       (∀ x : T, add x zero = x) →
       sum_slots (partial_sum m n <$> seqZ 0 m) = Some (reference_sum n)
       ∧ v = reference_sum n).
Proof.
  intros Hm Hn Hlen Hfn Hfm.
  assert (Hm' : 1 ≤ m ≤ INT_MAX) by (unfold TWO_30, INT_MAX in *; lia).
  destruct (compute_quadruple_roots_done fuel m n init Hm Hn Hlen Hfn Hfm)
    as (v & Hv & Hwork).
  exists v. split; [ | split; [ done | split ] ].
  - by apply phase1_all.
  - intros sys Hfresh H1 H2 H3 H4.
    rewrite <- Hfresh in Hwork.
    destruct (main_success sys fuel m n v ltac:(lia) ltac:(lia) H1 H2 H3 H4 Hwork)
      as (r & Hmain & Hexit & Htotal & _).
    by exists r.
  - intros add_assoc add_zero_r.
    pose proof (partial_sums_total add_assoc add_zero_r m n Hm' ltac:(lia)) as Hsum.
    split; [ done | ].
    set (sums0 := partial_sum m n <$> seqZ 0 m) in *.
    assert (Hlen0 : length sums0 = Z.to_nat m).
    { unfold sums0. by rewrite length_fmap, length_seqZ. }
    destruct (reduction_total add_assoc m n sums0 fuel Hm Hlen0 Hfm)
      as (final & rounds & Hloop & Hfinal).
    pose proof (reduction_loop_from m n Hm fuel 0 0%nat sums0) as Hloop'.
    rewrite Z.sub_0_r in Hloop'. change (2 ^ 0) with 1 in Hloop'.
    rewrite Hloop' in Hloop by (done || lia). injection Hloop as <- _.
    rewrite Hv, Hsum in Hfinal. by injection Hfinal.
Qed.

Lemma C1_total_witness :
  (1 ≤ 4 ≤ TWO_30 ∧ 1 ≤ 10 < INT_MAX
   ∧ length [[]; []; []; [] : list Z] = Z.to_nat 4
   ∧ (Z.to_nat 10 < 11)%nat ∧ (Z.to_nat (Z.log2_up 4) < 11)%nat)
  ∧ compute_quadruple_roots (ops := term_ops) 11 4 10 [[]; []; []; []]
    = Done [1; 2; 3; 4; 5; 6; 7; 8; 9; 10].
Proof.
  assert (Hassoc : ∀ x y z : list Z, (x ++ y) ++ z = x ++ (y ++ z)).
  { intros x y z. symmetry. apply app_assoc. }
  assert (Hnil : ∀ x : list Z, x ++ [] = x) by apply app_nil_r.
  assert (Hm : 1 ≤ 4 ≤ TWO_30) by (unfold TWO_30; lia).
  assert (Hn : 1 ≤ 10 < INT_MAX) by (unfold INT_MAX; lia).
  assert (Hfn : (Z.to_nat 10 < 11)%nat) by (vm_compute; lia).
  assert (Hfm : (Z.to_nat (Z.log2_up 4) < 11)%nat) by (vm_compute; lia).
  split; [ by repeat split | ].
  destruct (C1_total (ops := term_ops) 11 4 10 [[]; []; []; []]
              Hm Hn eq_refl Hfn Hfm) as (v & _ & Hwork & _ & Hlaws).
  destruct (Hlaws Hassoc Hnil) as [_ Hv].
  assert (Hsum : reference_sum (ops := term_ops) 10
                 = [1; 2; 3; 4; 5; 6; 7; 8; 9; 10]) by (vm_compute; reflexivity).
  by rewrite Hv, Hsum in Hwork.
Defined.

(** At [2^30 + 1] threads the threads never produce a total: the
    reduction reaches the round with step [2^30], where [2 * step]
    overflows. *)
Lemma C1_counterexample :
  ¬ ∃ (fuel : nat) (init : list (list Z)) r,
      compute_quadruple_roots (ops := term_ops) fuel 1073741825 1 init = Done r.
Proof.
  intros (fuel & init & r & Hrun). rewrite compute_quadruple_roots_eq in Hrun.
  apply bind_is_Done in Hrun as (s1 & _ & Hrun).
  apply bind_is_Done in Hrun as ([s2 rounds] & Hloop & _).
  apply (loop_overflow (ops := term_ops) 1073741825 1
           ltac:(unfold TWO_30; lia) fuel 0%nat s1).
  by rewrite Hloop.
Qed.


(** ** Runs on small inputs

    With [term_ops] the value printed lists the integers whose fourth
    roots were added, in the order of the additions: for thread counts
    that are powers of two and for others, each integer of [[1, 20]]
    occurs once. *)
Example runs_1_to_20 :
  (λ m, compute_quadruple_roots (ops := term_ops) 21 m 20
          (replicate (Z.to_nat m) []))
    <$> [1; 3; 5; 7; 8; 16]
  = replicate 6 (Done (seqZ 1 20)).
Proof. vm_compute. reflexivity. Qed.

(** More threads than numbers. *)
Example run_7_threads_3_numbers :
  compute_quadruple_roots (ops := term_ops) 4 7 3 (replicate 7 [])
  = Done [1; 2; 3].
Proof. vm_compute. reflexivity. Qed.

(** The two invalid calls of the specification. *)
Example invalid_calls (sys : system (list Z)) :
  main (ops := term_ops) sys 10 0 10 = Done (mkRun 1 [Stderr MsgNotPositive] None)
  ∧ main (ops := term_ops) sys 10 5 (-1)
    = Done (mkRun 1 [Stderr MsgNotPositive] None).
Proof. split; reflexivity. Qed.

(** * Further properties of the program *)

(** ** The ranges, lines 32-38 *)

(** [X1] Load balance. For [m] and [n] in [[1, INT_MAX]], every thread
    but the last gets exactly [n / m] integers and the last gets
    [n / m + n % m]; when there are at least as many numbers as threads
    no thread gets an empty range. *)
Theorem X1_range_sizes m n tid :
  1 ≤ m ≤ INT_MAX → 1 ≤ n ≤ INT_MAX → 0 ≤ tid < m →
  ∃ s e,
    thread_range (mkThreadArgs tid m n) = Done (s, e)
    ∧ e - s + 1 = (if tid =? m - 1 then n ÷ m + Z.rem n m else n ÷ m)
    ∧ (m ≤ n → s ≤ e).
Proof.
  intros Hm Hn Ht. eexists _, _. split; [ by apply thread_range_eq | ].
  pose proof (chunk_bounds m n Hm Hn) as [Hq Hmq].
  pose proof (Z.quot_rem' n m) as Hrem.
  pose proof (Z.rem_bound_pos n m ltac:(lia) ltac:(lia)) as Hbound.
  split.
  - destruct (Z.eqb_spec tid (m - 1)) as [->|]; lia.
  - intros Hle. assert (1 ≤ n ÷ m).
    { rewrite Z.quot_div_nonneg by lia. apply Z.div_le_lower_bound; lia. }
    destruct (Z.eqb_spec tid (m - 1)) as [->|]; nia.
Qed.

Lemma X1_range_sizes_witness :
  (1 ≤ 3 ≤ INT_MAX ∧ 1 ≤ 10 ≤ INT_MAX ∧ 0 ≤ 2 < 3)
  ∧ ∃ s e, thread_range (mkThreadArgs 2 3 10) = Done (s, e) ∧ e - s + 1 = 4.
Proof.
  assert (Hm : 1 ≤ 3 ≤ INT_MAX) by (unfold INT_MAX; lia).
  assert (Hn : 1 ≤ 10 ≤ INT_MAX) by (unfold INT_MAX; lia).
  split; [ repeat split; lia | ].
  destruct (X1_range_sizes 3 10 2 Hm Hn ltac:(lia)) as (s & e & Hr & Hsize & _).
  by exists s, e.
Defined.

(** [X2] The ranges follow each other in thread order: thread 0 starts
    at 1, thread [tid + 1] starts right after the end of thread [tid],
    and the last thread ends at [n]. *)
Theorem X2_ranges_contiguous m n :
  1 ≤ m ≤ INT_MAX → 1 ≤ n ≤ INT_MAX →
  (∃ e, thread_range (mkThreadArgs 0 m n) = Done (1, e))
  ∧ (∀ tid, 0 ≤ tid < m - 1 →
       ∃ s e e',
         thread_range (mkThreadArgs tid m n) = Done (s, e)
         ∧ thread_range (mkThreadArgs (tid + 1) m n) = Done (e + 1, e'))
  ∧ (∃ s, thread_range (mkThreadArgs (m - 1) m n) = Done (s, n)).
Proof.
  intros Hm Hn. split; [ | split ].
  - eexists. rewrite (thread_range_eq m n) by (done || lia). by rewrite Z.mul_0_l.
  - intros tid Ht. eexists _, _, _.
    rewrite !(thread_range_eq m n) by (done || lia).
    destruct (Z.eqb_spec tid (m - 1)); [ lia | ]. done.
  - eexists. rewrite (thread_range_eq m n) by (done || lia).
    by rewrite Z.eqb_refl.
Qed.

Lemma X2_ranges_contiguous_witness :
  (1 ≤ 3 ≤ INT_MAX ∧ 1 ≤ 10 ≤ INT_MAX)
  ∧ ∃ s e e',
      thread_range (mkThreadArgs 1 3 10) = Done (s, e)
      ∧ thread_range (mkThreadArgs (1 + 1) 3 10) = Done (e + 1, e').
Proof.
  assert (Hm : 1 ≤ 3 ≤ INT_MAX) by (unfold INT_MAX; lia).
  assert (Hn : 1 ≤ 10 ≤ INT_MAX) by (unfold INT_MAX; lia).
  split; [ by split | ].
  destruct (X2_ranges_contiguous 3 10 Hm Hn) as (_ & Hnext & _).
  apply (Hnext 1). lia.
Defined.

(** ** The summation loop, lines 41-44 *)

(** [X3] The loop [for (i = start; i <= end; i++) local_sum += pow(i, 0.25)]
    with [int] bounds completes exactly when [end < INT_MAX]. It then
    adds the terms of [start .. end] to the accumulator from left to
    right, and leaves the accumulator as it is when [end < start]. *)
Theorem X3_sum_loop {T : Type} {ops : FloatOps T} i end_ (acc : T) :
  INT_MIN ≤ i ≤ INT_MAX → end_ ≤ INT_MAX →
  ((∃ fuel, is_done (sum_loop fuel i end_ acc)) ↔ end_ < INT_MAX)
  ∧ (end_ < INT_MAX → ∀ fuel, (Z.to_nat (end_ - i + 1) < fuel)%nat →
       sum_loop fuel i end_ acc
       = Done (foldl add acc (pow025 <$> seqZ i (end_ - i + 1))))
  ∧ (end_ < i → ∀ fuel, sum_loop (S fuel) i end_ acc = Done acc).
Proof.
  intros Hi He. split; [ split | split ].
  - intros [fuel Hdone]. destruct (decide (end_ = INT_MAX)) as [->|]; [ | lia ].
    exfalso. apply (sum_loop_int_max fuel i acc); [ lia | done ].
  - intros Hlt. exists (S (Z.to_nat (end_ - i + 1))).
    rewrite sum_loop_done by lia. exact I.
  - intros Hlt fuel Hfuel. apply sum_loop_done; lia.
  - intros Hlt fuel. cbn [sum_loop]. by destruct (Z.leb_spec i end_); [ lia | ].
Qed.

Lemma X3_sum_loop_witness :
  (INT_MIN ≤ 3 ≤ INT_MAX ∧ 5 ≤ INT_MAX)
  ∧ sum_loop (ops := term_ops) 4 3 5 [1; 2] = Done [1; 2; 3; 4; 5].
Proof.
  assert (Hi : INT_MIN ≤ 3 ≤ INT_MAX) by (unfold INT_MIN, INT_MAX; lia).
  assert (He : 5 ≤ INT_MAX) by (unfold INT_MAX; lia).
  split; [ by split | ].
  destruct (X3_sum_loop (ops := term_ops) 3 5 [1; 2] Hi He) as (_ & Hval & _).
  apply (Hval ltac:(unfold INT_MAX; lia) 4%nat). vm_compute. lia.
Defined.

(** ** Phase 1 of all threads, lines 24-53 *)

(** [X4] Phase 1 does not depend on the order in which the threads run
    nor on what the freshly allocated array contains: whatever both are,
    at the barrier slot [tid] holds the sum over the range of thread
    [tid], for every thread. *)
Theorem X4_phase1_any_order {T : Type} {ops : FloatOps T}
    fuel m n (init1 init2 : list T) ts1 ts2 :
  1 ≤ m ≤ INT_MAX → 1 ≤ n < INT_MAX → (Z.to_nat n < fuel)%nat →
  length init1 = Z.to_nat m → length init2 = Z.to_nat m →
  ts1 ≡ₚ thread_args m n → ts2 ≡ₚ thread_args m n →
  run_threads (phase1 fuel) ts1 init1 = Done (partial_sum m n <$> seqZ 0 m)
  ∧ run_threads (phase1 fuel) ts2 init2 = Done (partial_sum m n <$> seqZ 0 m).
Proof.
  intros Hm Hn Hfuel Hl1 Hl2 Hp1 Hp2.
  split; by apply phase1_all.
Qed.

Lemma X4_phase1_any_order_witness :
  (1 ≤ 2 ≤ INT_MAX ∧ 1 ≤ 5 < INT_MAX ∧ (Z.to_nat 5 < 6)%nat
   ∧ [mkThreadArgs 1 2 5; mkThreadArgs 0 2 5] ≡ₚ thread_args 2 5)
  ∧ run_threads (phase1 (ops := term_ops) 6)
      [mkThreadArgs 1 2 5; mkThreadArgs 0 2 5] [[7]; [8]]
    = Done [[1; 2]; [3; 4; 5]].
Proof.
  assert (Hm : 1 ≤ 2 ≤ INT_MAX) by (unfold INT_MAX; lia).
  assert (Hn : 1 ≤ 5 < INT_MAX) by (unfold INT_MAX; lia).
  assert (Hfuel : (Z.to_nat 5 < 6)%nat) by (vm_compute; lia).
  assert (Hperm : [mkThreadArgs 1 2 5; mkThreadArgs 0 2 5] ≡ₚ thread_args 2 5)
    by apply Permutation_swap.
  split; [ by repeat split | ].
  destruct (X4_phase1_any_order (ops := term_ops) 6 2 5 [[7]; [8]] [[7]; [8]]
              _ _ Hm Hn Hfuel eq_refl eq_refl Hperm Hperm) as [Hrun _].
  assert (Hval : partial_sum (ops := term_ops) 2 5 <$> seqZ 0 2
                 = [[1; 2]; [3; 4; 5]]) by (vm_compute; reflexivity).
  by rewrite Hval in Hrun.
Defined.

(** ** One round of the reduction, lines 70-80 *)

(** [X5] The body of a round, run by a thread of the program on an array
    with a slot for every thread, is undefined only through [int]
    overflow: it completes exactly when [2 * step] fits an [int] and,
    for an active thread, [tid + step] fits too. In particular its
    accesses to [partial_sums] are always inside the array. *)
Theorem X5_round_body_defined {T : Type} {ops : FloatOps T}
    step tid m n (s : list T) :
  1 ≤ step → 0 ≤ tid < m → m ≤ INT_MAX → m ≤ Z.of_nat (length s) →
  is_done (reduce_round step (mkThreadArgs tid m n) s)
  ↔ 2 * step ≤ INT_MAX
    ∧ (tid `mod` (2 * step) = 0 → tid + step ≤ INT_MAX).
Proof.
  intros Hs Ht Hm Hlen.
  unfold reduce_round; cbn [thread_id total_threads]. unfold int_mul, int_of.
  destruct (in_int (2 * step)) eqn:E2.
  - unfold in_int in E2. apply andb_true_iff in E2.
    rewrite bind_Done. rewrite int_rem_nonneg by lia. rewrite bind_Done.
    destruct (Z.eqb_spec (tid `mod` (2 * step)) 0) as [Hz|Hnz].
    + unfold int_add, int_of. destruct (in_int (tid + step)) eqn:Ep.
      * unfold in_int in Ep. apply andb_true_iff in Ep. rewrite bind_Done.
        split; [ intros _; lia | intros _ ].
        destruct (Z.ltb_spec (tid + step) m); [ | exact I ].
        destruct (lookup_lt_is_Some_2 s (Z.to_nat tid) ltac:(lia)) as [x Hx].
        destruct (lookup_lt_is_Some_2 s (Z.to_nat (tid + step)) ltac:(lia))
          as [y Hy].
        rewrite (load_Done s tid x) by (done || lia). rewrite bind_Done.
        rewrite (load_Done s (tid + step) y) by (done || lia). rewrite bind_Done.
        rewrite store_Done by lia. exact I.
      * split; [ intros [] | ]. intros [_ Hfit]. specialize (Hfit Hz).
        unfold in_int, INT_MIN in Ep. apply andb_false_iff in Ep.
        destruct Ep as [Ep|Ep]; lia.
    + split; [ intros _; split; [ lia | tauto ] | intros _; exact I ].
  - split; [ intros [] | ]. intros [Hfit _].
    unfold in_int, INT_MIN in E2. apply andb_false_iff in E2.
    destruct E2 as [E2|E2]; lia.
Qed.

Lemma X5_round_body_defined_witness :
  (1 ≤ 2 ∧ 0 ≤ 4 < 7 ∧ 7 ≤ INT_MAX
   ∧ 7 ≤ Z.of_nat (length (replicate 7 ([] : list Z))))
  ∧ is_done (reduce_round (ops := term_ops) 2 (mkThreadArgs 4 7 7)
               (replicate 7 [])).
Proof.
  assert (Hm : 7 ≤ INT_MAX) by (unfold INT_MAX; lia).
  assert (Hlen : 7 ≤ Z.of_nat (length (replicate 7 ([] : list Z))))
    by (vm_compute; discriminate).
  split; [ repeat split; done || lia | ].
  apply (X5_round_body_defined (ops := term_ops) 2 4 7 7 (replicate 7 []));
    [ lia | lia | done | done | ].
  unfold INT_MAX. split; [ lia | intros _; lia ].
Defined.

(** [X6] A round of the [m <= 2^30] threads gives the same array in
    whatever order the threads run it, with no law of the addition:
    slot [j] receives slot [j + step] when [j] is a multiple of
    [2 * step] and [j + step] is a slot, and keeps its value otherwise. *)
Theorem X6_round_any_order {T : Type} {ops : FloatOps T}
    step m n (sums : list T) ts1 ts2 :
  1 ≤ step → step < m → m ≤ TWO_30 → length sums = Z.to_nat m →
  ts1 ≡ₚ thread_args m n → ts2 ≡ₚ thread_args m n →
  ∃ sums',
    run_threads (reduce_round step) ts1 sums = Done sums'
    ∧ run_threads (reduce_round step) ts2 sums = Done sums'
    ∧ length sums' = length sums
    ∧ ∀ (j : nat) x, sums !! j = Some x →
        sums' !! j
        = Some (if decide (Z.of_nat j `mod` (2 * step) = 0) then
                  match sums !! (j + Z.to_nat step)%nat with
                  | Some y => add x y
                  | None => x
                  end
                else x).
Proof.
  intros Hs Hsm Hm Hlen Hp1 Hp2. exists (combine_round step sums).
  split; [ by apply (round_all step m n) | ].
  split; [ by apply (round_all step m n) | ].
  split; [ apply combine_round_length | ].
  intros j x Hx. by apply combine_round_lookup.
Qed.

Lemma X6_round_any_order_witness :
  (1 ≤ 1 ∧ 1 < 3 ∧ 3 ≤ TWO_30
   ∧ [mkThreadArgs 2 3 3; mkThreadArgs 0 3 3; mkThreadArgs 1 3 3]
     ≡ₚ thread_args 3 3)
  ∧ ∃ sums',
      run_threads (reduce_round (ops := term_ops) 1)
        [mkThreadArgs 2 3 3; mkThreadArgs 0 3 3; mkThreadArgs 1 3 3]
        [[1]; [2]; [3]] = Done sums'
      ∧ run_threads (reduce_round (ops := term_ops) 1) (thread_args 3 3)
          [[1]; [2]; [3]] = Done sums'.
Proof.
  assert (Hm : 3 ≤ TWO_30) by (unfold TWO_30; lia).
  assert (Hperm : [mkThreadArgs 2 3 3; mkThreadArgs 0 3 3; mkThreadArgs 1 3 3]
                  ≡ₚ thread_args 3 3).
  { change (thread_args 3 3)
      with [mkThreadArgs 0 3 3; mkThreadArgs 1 3 3; mkThreadArgs 2 3 3].
    apply (Permutation_app_comm [mkThreadArgs 2 3 3]
             [mkThreadArgs 0 3 3; mkThreadArgs 1 3 3]). }
  split; [ repeat split; done || lia | ].
  destruct (X6_round_any_order (ops := term_ops) 1 3 3 [[1]; [2]; [3]] _ _
              ltac:(lia) ltac:(lia) Hm eq_refl Hperm ltac:(reflexivity))
    as (sums' & H1 & H2 & _).
  by exists sums'.
Defined.

(** ** The reduction loop, lines 67-86 *)

Lemma not_multiple_of_double step j :
  1 ≤ step → j `mod` (2 * step) ≠ 0 → j `mod` (2 * (step * 2)) ≠ 0.
Proof.
  intros Hs Hj Hz. apply Hj.
  apply Zmod_divides in Hz as [c ->]; [ | lia ].
  apply Zmod_divides; [ lia | ]. exists (2 * c). lia.
Qed.

(** From a round with step [step] on, only slots that are multiples of
    [2 * step] are written. *)
Lemma reduction_loop_frame {T : Type} {ops : FloatOps T} fuel m n :
  ∀ step rounds (sums final : list T) r,
    1 ≤ step →
    reduction_loop fuel m n step rounds sums = Done (final, r) →
    length final = length sums
    ∧ ∀ j, 0 ≤ j → j `mod` (2 * step) ≠ 0 →
           final !! Z.to_nat j = sums !! Z.to_nat j.
Proof.
  induction fuel as [|fuel IH]; intros step rounds sums final r Hs Hrun;
    [ discriminate | ].
  cbn [reduction_loop] in Hrun. destruct (step <? m).
  - apply bind_is_Done in Hrun as (s1 & Hround & Hrun).
    apply bind_is_Done in Hrun as (step' & Hstep & Hrun).
    apply int_of_done in Hstep as [-> _].
    apply (round_frame step m) in Hround as [Hlen1 Hframe1]; [ | done | ].
    + apply IH in Hrun as [Hlen Hframe]; [ | lia ].
      split; [ congruence | ]. intros j Hj Hmod.
      rewrite Hframe by (done || by apply not_multiple_of_double).
      apply Hframe1; [ done | tauto ].
    + intros a (tid & -> & Ht)%elem_of_thread_args. cbn. lia.
  - injection Hrun as <- _. by split.
Qed.

(** [X7] Whenever the reduction loop completes, the array has the length
    it had and every odd slot still holds the partial sum phase 1 left
    in it: the reduction only ever writes even slots. *)
Theorem X7_odd_slots_kept {T : Type} {ops : FloatOps T}
    fuel m n (sums final : list T) r :
  reduction_loop fuel m n 1 0 sums = Done (final, r) →
  length final = length sums
  ∧ ∀ j, 0 ≤ j → Z.odd j = true →
         final !! Z.to_nat j = sums !! Z.to_nat j.
Proof.
  intros Hrun.
  apply reduction_loop_frame in Hrun as [Hlen Hframe]; [ | lia ].
  split; [ done | ]. intros j Hj Hodd. apply Hframe; [ done | ].
  rewrite Z.mul_1_r, Zmod_odd, Hodd. lia.
Qed.

Lemma X7_odd_slots_kept_witness :
  reduction_loop (ops := term_ops) 4 5 5 1 0 [[1]; [2]; [3]; [4]; [5]]
  = Done ([[1; 2; 3; 4; 5]; [2]; [3; 4]; [4]; [5]], 3%nat)
  ∧ [[1; 2; 3; 4; 5]; [2]; [3; 4]; [4]; [5]] !! Z.to_nat 3
    = [[1]; [2]; [3]; [4]; [5]] !! Z.to_nat 3.
Proof.
  assert (Hrun : reduction_loop (ops := term_ops) 4 5 5 1 0
                   [[1]; [2]; [3]; [4]; [5]]
                 = Done ([[1; 2; 3; 4; 5]; [2]; [3; 4]; [4]; [5]], 3%nat))
    by (vm_compute; reflexivity).
  split; [ exact Hrun | ].
  destruct (X7_odd_slots_kept (ops := term_ops) 4 5 5 _ _ _ Hrun) as [_ Hodd].
  apply Hodd; [ lia | reflexivity ].
Defined.

(** [X8] On an array with a slot for every thread the reduction loop
    completes, for enough fuel, exactly when the thread count is at most
    [2^30]: above it the round with step [2^30] is reached and
    [2 * step] overflows. *)
Theorem X8_reduction_defined {T : Type} {ops : FloatOps T} m n (sums : list T) :
  1 ≤ m → length sums = Z.to_nat m →
  (∃ fuel, is_done (reduction_loop fuel m n 1 0 sums)) ↔ m ≤ TWO_30.
Proof.
  intros Hm Hlen. split.
  - intros [fuel Hdone]. destruct (Z_le_gt_dec m TWO_30) as [|Hgt]; [ done | ].
    exfalso. apply (loop_overflow m n ltac:(lia) fuel 0%nat sums). done.
  - intros Hle. exists (S (Z.to_nat (Z.log2_up m))).
    pose proof (reduction_loop_from m n ltac:(lia)
                  (S (Z.to_nat (Z.log2_up m))) 0 0%nat sums) as Hloop.
    rewrite Z.sub_0_r in Hloop. change (2 ^ 0) with 1 in Hloop.
    rewrite Hloop by (done || lia). exact I.
Qed.

Lemma X8_reduction_defined_witness :
  (1 ≤ 3 ∧ length [[1]; [2]; [3]] = Z.to_nat 3)
  ∧ ∃ fuel, is_done (reduction_loop (ops := term_ops) fuel 3 3 1 0
                       [[1]; [2]; [3]]).
Proof.
  split; [ split; [ lia | reflexivity ] | ].
  apply (X8_reduction_defined (ops := term_ops) 3 3 [[1]; [2]; [3]]);
    [ lia | reflexivity | unfold TWO_30; lia ].
Defined.

(** ** The whole computation, lines 23-96 *)

Lemma run_threads_stuck {T : Type}
    (body : ThreadArgs → list T → outcome (list T)) a ts :
  a ∈ ts → (∀ s, ¬ is_done (body a s)) →
  ∀ s, ¬ is_done (run_threads body ts s).
Proof.
  intros Ha Hstuck. induction ts as [|b ts IH]; intros s.
  - by apply elem_of_nil in Ha.
  - cbn [run_threads]. apply elem_of_cons in Ha as [<-|Ha].
    + apply bind_not_Done, Hstuck.
    + destruct (body b s) as [s1| |]; [ | simpl; tauto | simpl; tauto ].
      rewrite bind_Done. by apply IH.
Qed.

(** With [n = INT_MAX] the last thread never finishes phase 1. *)
Lemma phase1_int_max {T : Type} {ops : FloatOps T} fuel m (s : list T) :
  1 ≤ m ≤ INT_MAX →
  ¬ is_done (run_threads (phase1 fuel) (thread_args m INT_MAX) s).
Proof.
  intros Hm.
  assert (Hn : 1 ≤ INT_MAX ≤ INT_MAX) by (unfold INT_MAX; lia).
  apply (run_threads_stuck _ (mkThreadArgs (m - 1) m INT_MAX)).
  - apply elem_of_thread_args. exists (m - 1). split; [ done | lia ].
  - intros s0. unfold phase1.
    rewrite (thread_range_eq m INT_MAX) by (done || lia).
    rewrite bind_Done, Z.eqb_refl. apply bind_not_Done.
    apply sum_loop_int_max.
    pose proof (chunk_bounds m INT_MAX Hm Hn) as [Hq Hmq]. nia.
Qed.

(** [X9] The domain of the program. For [n] in [[1, INT_MAX]] and an
    array with a slot for every thread, the [m] threads complete and
    print a total, for enough fuel, exactly when [m <= 2^30] and
    [n < INT_MAX]; outside, an [int] overflows. *)
Theorem X9_computation_defined {T : Type} {ops : FloatOps T}
    m n (init : list T) :
  1 ≤ m → 1 ≤ n ≤ INT_MAX → length init = Z.to_nat m →
  (∃ fuel, is_done (compute_quadruple_roots fuel m n init))
  ↔ m ≤ TWO_30 ∧ n < INT_MAX.
Proof.
  intros Hm Hn Hlen. split.
  - intros [fuel Hdone]. rewrite compute_quadruple_roots_eq in Hdone.
    destruct (Z_le_gt_dec m TWO_30) as [Hle|Hgt].
    + split; [ done | ]. destruct (decide (n = INT_MAX)) as [->|]; [ | lia ].
      exfalso. revert Hdone. apply bind_not_Done. apply phase1_int_max.
      unfold TWO_30, INT_MAX in *. lia.
    + exfalso. revert Hdone.
      destruct (run_threads _ _ _) as [s1| |]; [ | simpl; tauto | simpl; tauto ].
      rewrite bind_Done. apply bind_not_Done. apply loop_overflow. lia.
  - intros [Hle Hlt].
    exists (S (Z.to_nat n `max` Z.to_nat (Z.log2_up m))).
    destruct (compute_quadruple_roots_done
                (S (Z.to_nat n `max` Z.to_nat (Z.log2_up m))) m n init)
      as (v & _ & ->); done || lia.
Qed.

Lemma X9_computation_defined_witness :
  (1 ≤ 3 ∧ 1 ≤ 5 ≤ INT_MAX ∧ length [[]; []; [] : list Z] = Z.to_nat 3)
  ∧ ∃ fuel, is_done (compute_quadruple_roots (ops := term_ops) fuel 3 5
                       [[]; []; []]).
Proof.
  assert (Hn : 1 ≤ 5 ≤ INT_MAX) by (unfold INT_MAX; lia).
  split; [ repeat split; done || lia | ].
  apply (X9_computation_defined (ops := term_ops) 3 5 [[]; []; []]);
    [ lia | done | reflexivity | unfold TWO_30, INT_MAX; lia ].
Defined.

(** [X10] One thread, [n < INT_MAX]: the thread gets [[1, n]], the loop
    runs no round and the total printed is the sum the sequential loop
    computes, term for term in the same order. No law of the addition is
    used, so this holds for the rounded additions of [double] as well. *)
Theorem X10_single_thread {T : Type} {ops : FloatOps T} fuel n (init : list T) :
  1 ≤ n < INT_MAX → length init = 1%nat → (Z.to_nat n < fuel)%nat →
  thread_range (mkThreadArgs 0 1 n) = Done (1, n)
  ∧ (∀ s : list T, reduction_loop fuel 1 n 1 0 s = Done (s, 0%nat))
  ∧ compute_quadruple_roots fuel 1 n init
    = Done (foldl add zero (pow025 <$> seqZ 1 n)).
Proof. intros Hn Hlen Hfuel. by apply single_thread_in_range. Qed.

Lemma X10_single_thread_witness :
  (1 ≤ 4 < INT_MAX ∧ length [[9] : list Z] = 1%nat ∧ (Z.to_nat 4 < 5)%nat)
  ∧ compute_quadruple_roots (ops := term_ops) 5 1 4 [[9]] = Done [1; 2; 3; 4].
Proof.
  assert (Hn : 1 ≤ 4 < INT_MAX) by (unfold INT_MAX; lia).
  assert (Hfuel : (Z.to_nat 4 < 5)%nat) by (vm_compute; lia).
  split; [ by repeat split | ].
  destruct (X10_single_thread (ops := term_ops) 5 4 [[9]] Hn eq_refl Hfuel)
    as (_ & _ & Hrun).
  assert (Hval : foldl (@add _ term_ops) (@zero _ term_ops)
                    (@pow025 _ term_ops <$> seqZ 1 4)
                 = [1; 2; 3; 4]) by (vm_compute; reflexivity).
  by rewrite Hval in Hrun.
Defined.

(** ** [main], lines 110-165 *)

Lemma create_threads_first_failure {T : Type} (sys : system T) before k after :
  (∀ i, i ∈ before → pthread_create sys i = true) →
  pthread_create sys k = false →
  create_threads sys (before ++ k :: after)
  = ((λ i, Acquire (RThread i)) <$> before, Some k).
Proof.
  intros Hok Hk. induction before as [|i before IH]; cbn [app create_threads].
  - by rewrite Hk.
  - rewrite Hok by left. rewrite IH; [ done | ].
    intros j Hj. apply Hok. by right.
Qed.


Lemma create_threads_all_in {T : Type} (sys : system T) ids :
  (∀ i, i ∈ ids → pthread_create sys i = true) →
  create_threads sys ids = ((λ i, Acquire (RThread i)) <$> ids, None).
Proof.
  intros Hok. induction ids as [|i ids IH]; [ done | ].
  cbn [create_threads]. rewrite Hok by left. rewrite IH; [ done | ].
  intros j Hj. apply Hok. by right.
Qed.

Lemma main_table_released {T : Type} {ops : FloatOps T} (sys : system T)
    fuel m n r :
  main sys fuel m n = Done r →
  Acquire RPartialSums ∈ trace r →
  Release RPartialSums ∈ trace r.
Proof.
  unfold main.
  destruct ((m <=? 0) || (n <=? 0)).
  { intros [= <-] [[=]|Hnil]%elem_of_cons. by apply elem_of_nil in Hnil. }
  destruct (malloc_partial_sums sys); cbn [negb].
  2:{ intros [= <-] [[=]|Hnil]%elem_of_cons. by apply elem_of_nil in Hnil. }
  destruct (negb (malloc_threads sys) || negb (malloc_thread_args sys)).
  { intros [= <-] _. cbn [trace]. repeat (rewrite elem_of_app || rewrite elem_of_cons). tauto. }
  destruct (create_threads sys (seqZ 0 m)) as [created [i|]].
  - intros [= <-] _. cbn [trace]. repeat (rewrite elem_of_app || rewrite elem_of_cons). tauto.
  - destruct (compute_quadruple_roots fuel m n (fresh_memory sys)) as [v| |];
      [ | discriminate | discriminate ].
    rewrite bind_Done. intros [= <-] _. cbn [trace].
    repeat (rewrite elem_of_app || rewrite elem_of_cons). tauto.
Qed.



(** [X11] The path of [main] on which everything succeeds, for
    [m <= 2^30] threads, [n < INT_MAX] and enough fuel for the threads
    to finish: the threads complete with a total [v] and [main] returns
    0 with this total; it creates and joins every thread [0 .. m - 1]
    before it destroys the barrier and frees the three arrays, which are
    the last four events; and it leaves no resource behind. *)
Theorem X11_main_success {T : Type} {ops : FloatOps T} (sys : system T) fuel m n :
  1 ≤ m ≤ TWO_30 → 1 ≤ n < INT_MAX →
  malloc_partial_sums sys = true → malloc_threads sys = true →
  malloc_thread_args sys = true →
  (∀ i, 0 ≤ i < m → pthread_create sys i = true) →
  length (fresh_memory sys) = Z.to_nat m →
  (Z.to_nat n < fuel)%nat → (Z.to_nat (Z.log2_up m) < fuel)%nat →
  ∃ v pre,
    compute_quadruple_roots fuel m n (fresh_memory sys) = Done v
    ∧ main sys fuel m n
      = Done (mkRun 0 (pre ++ [Release RBarrier; Release RPartialSums;
                               Release RThreads; Release RThreadArgs])
                (Some v))
    ∧ (∀ i, 0 ≤ i < m → Acquire (RThread i) ∈ pre ∧ Release (RThread i) ∈ pre)
    ∧ ∀ r, ¬ leaked (pre ++ [Release RBarrier; Release RPartialSums;
                             Release RThreads; Release RThreadArgs]) r.
Proof.
  intros Hm Hn H1 H2 H3 H4 Hlen Hfn Hfm.
  assert (Hcreate : create_threads sys (seqZ 0 m)
                    = ((λ i, Acquire (RThread i)) <$> seqZ 0 m, None)).
  { apply create_threads_all_in. intros i Hi%elem_of_seqZ. apply H4. lia. }
  destruct (compute_quadruple_roots_done fuel m n (fresh_memory sys)
              Hm Hn Hlen Hfn Hfm) as (v & _ & Hv).
  exists v,
    ([Acquire RPartialSums; Acquire RBarrier; Acquire RThreads;
      Acquire RThreadArgs]
     ++ ((λ i, Acquire (RThread i)) <$> seqZ 0 m)
     ++ ((λ i, Release (RThread i)) <$> seqZ 0 m)).
  split; [ done | split; [ | split ] ].
  - unfold main.
    destruct (Z.leb_spec m 0); [ lia | ]. destruct (Z.leb_spec n 0); [ lia | ].
    cbn [orb]. rewrite H1, H2, H3. cbn [negb orb]. rewrite Hcreate, Hv, bind_Done.
    do 2 f_equal. cbn [app]. by rewrite <- !app_assoc.
  - intros i Hi.
    rewrite !elem_of_app, !list_elem_of_fmap.
    split; [ right; left | right; right ]; exists i;
      (split; [ done | apply elem_of_seqZ; lia ]).
  - intros r [Hacq Hrel]. apply Hrel. clear Hrel.
    cbn [app] in *.
    repeat (rewrite elem_of_app in Hacq || rewrite elem_of_cons in Hacq).
    repeat (rewrite elem_of_app || rewrite elem_of_cons).
    rewrite !list_elem_of_fmap in *.
    destruct Hacq as [[= ->]|[[= ->]|[[= ->]|[[= ->]|Hacq]]]]; [ tauto .. | ].
    destruct Hacq as [[(i & [= ->] & Hi)|(i & [=] & _)]|Hacq].
    + do 4 right. left. right. by exists i.
    + destruct Hacq as [Heq|[Heq|[Heq|[Heq|Hnil]]]]; try discriminate.
      by apply elem_of_nil in Hnil.
Qed.

Lemma X11_main_success_witness :
  (1 ≤ 2 ≤ TWO_30 ∧ 1 ≤ 5 < INT_MAX
   ∧ length [[8]; [9] : list Z] = Z.to_nat 2
   ∧ (Z.to_nat 5 < 6)%nat ∧ (Z.to_nat (Z.log2_up 2) < 6)%nat)
  ∧ ∃ r, main (ops := term_ops)
           (mkSystem (list Z) true true true (λ _, true) [[8]; [9]]) 6 2 5
         = Done r
         ∧ exit_code r = 0 ∧ total r = Some [1; 2; 3; 4; 5].
Proof.
  assert (Hm : 1 ≤ 2 ≤ TWO_30) by (unfold TWO_30; lia).
  assert (Hn : 1 ≤ 5 < INT_MAX) by (unfold INT_MAX; lia).
  assert (Hfn : (Z.to_nat 5 < 6)%nat) by (vm_compute; lia).
  assert (Hfm : (Z.to_nat (Z.log2_up 2) < 6)%nat) by (vm_compute; lia).
  split; [ by repeat split | ].
  destruct (X11_main_success (ops := term_ops)
              (mkSystem (list Z) true true true (λ _, true) [[8]; [9]]) 6 2 5
              Hm Hn eq_refl eq_refl eq_refl (λ _ _, eq_refl) eq_refl Hfn Hfm)
    as (v & pre & Hv & Hmain & _).
  assert (Hval : compute_quadruple_roots (ops := term_ops) 6 2 5 [[8]; [9]]
                 = Done [1; 2; 3; 4; 5]) by (vm_compute; reflexivity).
  cbn [fresh_memory] in Hv. rewrite Hval in Hv. injection Hv as <-.
  eexists. split; [ exact Hmain | split; reflexivity ].
Defined.

(** [X12] Every path of [main] that returns 1 keeps what it got after
    [partial_sums]: a barrier that was initialised is never destroyed
    and a thread that was created is never joined, while [partial_sums]
    itself is freed on every path that allocated it. *)
Theorem X12_main_error_keeps {T : Type} {ops : FloatOps T}
    (sys : system T) fuel m n r :
  main sys fuel m n = Done r →
  exit_code r = 1 →
  (Acquire RBarrier ∈ trace r → leaked (trace r) RBarrier)
  ∧ (∀ i, Acquire (RThread i) ∈ trace r → leaked (trace r) (RThread i))
  ∧ ¬ leaked (trace r) RPartialSums.
Proof.
  intros Hmain Hexit. split; [ | split ].
  - intros Hacq. split; [ done | ]. intros Hrel.
    by destruct (main_error_path sys fuel m n r _ Hmain Hexit Hrel) as [Hne _].
  - intros i Hacq. split; [ done | ]. intros Hrel.
    destruct (main_error_path sys fuel m n r _ Hmain Hexit Hrel) as [_ Hne].
    by apply (Hne i).
  - intros [Hacq Hrel]. apply Hrel. by apply (main_table_released sys fuel m n).
Qed.

Lemma X12_main_error_keeps_witness :
  let r := mkRun (T := list Z) 1
             [Acquire RPartialSums; Acquire RBarrier; Acquire RThreads;
              Acquire RThreadArgs; Acquire (RThread 0); Acquire (RThread 1);
              Stderr (MsgCreate 2); Release RPartialSums; Release RThreads;
              Release RThreadArgs] None in
  (main (ops := term_ops)
     (mkSystem (list Z) true true true (λ i, i <? 2) []) 6 3 5 = Done r
   ∧ exit_code r = 1)
  ∧ leaked (trace r) (RThread 1).
Proof.
  intros r.
  assert (Hmain : main (ops := term_ops)
                    (mkSystem (list Z) true true true (λ i, i <? 2) []) 6 3 5
                  = Done r) by reflexivity.
  split; [ split; [ exact Hmain | reflexivity ] | ].
  destruct (X12_main_error_keeps (ops := term_ops)
              (mkSystem (list Z) true true true (λ i, i <? 2) []) 6 3 5 r
              Hmain eq_refl)
    as (_ & Hthreads & _).
  apply Hthreads. apply list_elem_of_In. do 5 right. left. reflexivity.
Defined.

(** [X13] The creation loop stops at the first [pthread_create] that
    fails: when the creations of threads [0 .. k - 1] succeed and that of
    thread [k < m] fails, exactly the threads [0 .. k - 1] were created,
    in this order, none after [k] is attempted, and [main] reports thread
    [k], frees the three arrays and returns 1 without a total. *)
Theorem X13_first_failed_creation {T : Type} {ops : FloatOps T}
    (sys : system T) fuel m n k :
  1 ≤ m → 1 ≤ n →
  malloc_partial_sums sys = true → malloc_threads sys = true →
  malloc_thread_args sys = true →
  0 ≤ k < m → (∀ i, 0 ≤ i < k → pthread_create sys i = true) →
  pthread_create sys k = false →
  main sys fuel m n
  = Done (mkRun 1 ([Acquire RPartialSums; Acquire RBarrier; Acquire RThreads;
                    Acquire RThreadArgs]
                   ++ ((λ i, Acquire (RThread i)) <$> seqZ 0 k)
                   ++ [Stderr (MsgCreate k); Release RPartialSums;
                       Release RThreads; Release RThreadArgs]) None).
Proof.
  intros Hm Hn H1 H2 H3 Hk Hok Hfail. unfold main.
  destruct (Z.leb_spec m 0); [ lia | ]. destruct (Z.leb_spec n 0); [ lia | ].
  cbn [orb]. rewrite H1, H2, H3. cbn [negb orb].
  replace m with (k + (m - k)) at 1 by lia.
  rewrite seqZ_app by lia. rewrite (seqZ_cons (0 + k)) by lia.
  rewrite Z.add_0_l.
  rewrite create_threads_first_failure; [ done | | done ].
  intros i Hi%elem_of_seqZ. apply Hok. lia.
Qed.

Lemma X13_first_failed_creation_witness :
  (1 ≤ 3 ∧ 1 ≤ 5 ∧ 0 ≤ 2 < 3)
  ∧ main (ops := term_ops)
      (mkSystem (list Z) true true true (λ i, i <? 2) []) 6 3 5
    = Done (mkRun 1 [Acquire RPartialSums; Acquire RBarrier; Acquire RThreads;
                     Acquire RThreadArgs; Acquire (RThread 0); Acquire (RThread 1);
                     Stderr (MsgCreate 2); Release RPartialSums; Release RThreads;
                     Release RThreadArgs] None).
Proof.
  split; [ lia | ].
  apply (X13_first_failed_creation (ops := term_ops)
           (mkSystem (list Z) true true true (λ i, i <? 2) []) 6 3 5 2);
    [ lia | lia | done | done | done | lia | | done ].
  intros i Hi. cbn [pthread_create]. apply Z.ltb_lt. lia.
Defined.


